(** * hugot: message dispatch and command routing (handler.go)

    A shallow embedding of the handler layer of the hugot chat-bot
    framework: response writers, command sets, command resolution, the
    per-command invocation wrapper and the panic containment of the
    dispatch loop.

    Conventions of the embedding:
    - a Go [error] is [option error], [None] being [nil];
    - a nil-able slice is an [option (list _)], [None] being the nil slice;
    - a Go function that may panic returns an [outcome];
    - pointers ([*Message], [*responseWriter]) are threaded explicitly
      through a [State];
    - an interface value is the record of its methods. *)

From Stdlib.Strings Require Import String Ascii Byte.
From Stdlib Require Import List Bool Arith ZArith Lia.
From Stdlib Require Import Permutation Sorted OrderedTypeEx.
Import ListNotations.
Local Open Scope string_scope.
Local Open Scope list_scope.

(** ** Errors, contexts and panics *)

(** [context.Context]: only the identity of a context matters here. *)
Inductive Context : Type :=
| context_Background
| context_TODO
| context_WithValue (parent : Context) (key : nat).

(** The error values of handler.go, [flag.ErrHelp], and the errors built
    by [errors.New] and [fmt.Errorf]. *)
Inductive error : Type :=
| ErrSkipHears
| ErrUnknownCommand
| ErrBadCLI
| flag_ErrHelp
| ErrUsage (s : string)
| errNextCommand (ctx : Context)
| errorString (s : string).

(** [ErrNextCommand(ctx)] wraps [ctx] in the sentinel. *)
Definition ErrNextCommand (ctx : Context) : option error :=
  Some (errNextCommand ctx).

(** [Error()] of each error value. *)
Definition Error (e : error) : string :=
  match e with
  | ErrSkipHears => "skip hear messages"
  | ErrUnknownCommand => "unknown command"
  | ErrBadCLI => "could not process as command line"
  | flag_ErrHelp => "flag: help requested"
  | ErrUsage s => s
  | errNextCommand _ => "use next command"
  | errorString s => s
  end.

(** The value carried by a panic: an error value handed to [panic], or a
    runtime error. *)
Inductive PanicValue : Type :=
| PanicError (e : error)
| PanicRuntime (what : string).

Definition nilDeref : PanicValue :=
  PanicRuntime "invalid memory address or nil pointer dereference".

Definition indexOutOfRange : PanicValue :=
  PanicRuntime "index out of range".

Inductive outcome (A : Type) : Type :=
| Done (a : A)
| Panicked (v : PanicValue).
Arguments Done {A} a.
Arguments Panicked {A} v.

(** ** Messages *)

Inductive ErrorHandling : Type := ContinueOnError | ExitOnError | PanicOnError.

(** [flag.FlagSet] as far as handler.go configures it. *)
Record FlagSet : Type := NewFlagSet {
  fs_name : string;
  fs_errorHandling : ErrorHandling
}.

(** Modelled from the spec: the struct [Message] is declared in message.go;
    its fields are those that section 3 of the specification and the
    adapters list.  [flagOut] is the buffer that receives the output of
    [FlagSet] ([None] is the nil pointer). *)
Record Message : Type := mkMessage {
  Channel : string;
  From : string;
  To : string;
  UserID : string;
  Private : bool;
  ToBot : bool;
  Text : string;
  args : option (list string);
  flagOut : option string;
  Flags : option FlagSet
}.

(** [Message{}] *)
Definition emptyMessage : Message :=
  mkMessage EmptyString EmptyString EmptyString EmptyString false false
            EmptyString None None None.

Definition set_Text (m : Message) (t : string) : Message :=
  mkMessage (Channel m) (From m) (To m) (UserID m) (Private m) (ToBot m)
            t (args m) (flagOut m) (Flags m).

Definition set_Channel (m : Message) (c : string) : Message :=
  mkMessage c (From m) (To m) (UserID m) (Private m) (ToBot m)
            (Text m) (args m) (flagOut m) (Flags m).

Definition set_To (m : Message) (t : string) : Message :=
  mkMessage (Channel m) (From m) t (UserID m) (Private m) (ToBot m)
            (Text m) (args m) (flagOut m) (Flags m).

Definition set_args (m : Message) (a : option (list string)) : Message :=
  mkMessage (Channel m) (From m) (To m) (UserID m) (Private m) (ToBot m)
            (Text m) a (flagOut m) (Flags m).

Definition set_flags (m : Message) (out : option string) (fs : option FlagSet)
  : Message :=
  mkMessage (Channel m) (From m) (To m) (UserID m) (Private m) (ToBot m)
            (Text m) (args m) out fs.

(** ** Senders, the world, response writers *)

(** An adapter is known by its identity. *)
Definition Adapter : Type := nat.

(** The [Sender]s of handler.go: the discarding [nullSender] and the
    adapters. *)
Inductive Sender : Type :=
| nullSender
| adapterSender (a : Adapter).

(** What is observable outside the handlers: the messages handed to each
    adapter, the increments of the [messagesTx] and [messagesRx] counters
    (one label triple per increment) and what [glog.Error] received. *)
Record World : Type := mkWorld {
  outbox : list (Adapter * Context * Message);
  messagesTx : list (string * string * string);
  messagesRx : list (string * string * string);
  glog_Error : list PanicValue
}.

Definition emptyWorld : World := mkWorld [] [] [] [].

Definition incTx (l : string * string * string) (wd : World) : World :=
  mkWorld (outbox wd) (messagesTx wd ++ [l]) (messagesRx wd) (glog_Error wd).

Definition incRx (l : string * string * string) (wd : World) : World :=
  mkWorld (outbox wd) (messagesTx wd) (messagesRx wd ++ [l]) (glog_Error wd).

Definition logPanic (v : PanicValue) (wd : World) : World :=
  mkWorld (outbox wd) (messagesTx wd) (messagesRx wd) (glog_Error wd ++ [v]).

(** [s.Send(ctx, m)] for a [Sender] [s]. *)
Definition Sender_Send (s : Sender) (ctx : Context) (m : Message) (wd : World)
  : World :=
  match s with
  | nullSender => wd
  | adapterSender a =>
      mkWorld (outbox wd ++ [(a, ctx, m)]) (messagesTx wd) (messagesRx wd)
              (glog_Error wd)
  end.

Record responseWriter : Type := mkResponseWriter {
  w_snd : Sender;
  msg : Message;
  an : string
}.

Definition newResponseWriter (s : Sender) (m : Message) (an : string)
  : responseWriter := mkResponseWriter s m an.

(** [responseWriter.Send(ctx, m)] *)
Definition Send (w : responseWriter) (ctx : Context) (m : Message) (wd : World)
  : World :=
  Sender_Send (w_snd w) ctx m (incTx (an w, Channel m, From m) wd).

(** [responseWriter.Write(bs)]: the result,
    the writer after the call and the world after the call. *)
Definition Write (w : responseWriter) (bs : list byte) (wd : World)
  : (Z * option error) * responseWriter * World :=
  let nmsg := msg w in
  let nmsg := set_Text nmsg (string_of_list_byte bs) in
  let wd := Send w context_TODO nmsg wd in
  ((Z.of_nat (List.length bs), None), w, wd).

Definition SetChannel (w : responseWriter) (s : string) : responseWriter :=
  mkResponseWriter (w_snd w) (set_Channel (msg w) s) (an w).

Definition SetTo (w : responseWriter) (s : string) : responseWriter :=
  mkResponseWriter (w_snd w) (set_To (msg w) s) (an w).

Definition SetSender (w : responseWriter) (s : Sender) : responseWriter :=
  mkResponseWriter s (msg w) (an w).

Definition Copy (w : responseWriter) : responseWriter :=
  mkResponseWriter (w_snd w) emptyMessage (an w).

Definition NewNullResponseWriter (m : Message) : responseWriter :=
  newResponseWriter nullSender m "null".

(** ** The state a handler runs in, and the monad of handler code *)

(** A handler receives [w ResponseWriter] and [m *Message]; both are
    pointers, so what the handler does to them is seen by its caller. *)
Record State : Type := mkState {
  st_world : World;
  st_w : responseWriter;
  st_m : Message
}.

Definition set_m (st : State) (m : Message) : State :=
  mkState (st_world st) (st_w st) m.

Definition set_world (st : State) (wd : World) : State :=
  mkState wd (st_w st) (st_m st).

(** Code that runs in a [State] and returns or panics. *)
Definition M (A : Type) : Type := State -> outcome A * State.

Definition ret {A : Type} (a : A) : M A := fun st => (Done a, st).

Definition bind {A B : Type} (c : M A) (k : A -> M B) : M B :=
  fun st =>
    match c st with
    | (Done a, st') => k a st'
    | (Panicked v, st') => (Panicked v, st')
    end.

Definition panic {A : Type} (v : PanicValue) : M A :=
  fun st => (Panicked v, st).

Notation "x <- c ;; k" := (bind c (fun x => k))
  (at level 61, c at next level, right associativity).
Notation "c ;;; k" := (bind c (fun _ => k))
  (at level 61, right associativity).

(** [fmt.Fprint(w, s)]: one call of [w.Write] with the bytes of [s]. *)
Definition Fprint (s : string) : M (Z * option error) :=
  fun st =>
    match Write (st_w st) (list_byte_of_string s) (st_world st) with
    | (r, w', wd') => (Done r, mkState wd' w' (st_m st))
    end.

(** ** Handlers: an interface value is the record of its methods *)

(** [CommandFunc] *)
Definition CommandFunc : Type := Context -> M (option error).

(** [CommandHandler]: [Describe] and [Command]. *)
Record CommandHandler : Type := mkCommandHandler {
  Describe : string * string;
  Command : Context -> M (option error)
}.

(** [type CommandSet map[string]CommandHandler].  Go iterates over a map
    in an unspecified order: the list gives the entries in the order in
    which [range] visits them, and the keys are pairwise distinct. *)
Definition CommandSet : Type := list (string * CommandHandler).

Definition NewCommandSet : CommandSet := [].

(** The lookup [cs[k]] in the map. *)
Fixpoint cs_get (cs : CommandSet) (k : string) : option CommandHandler :=
  match cs with
  | [] => None
  | (k', c) :: r => if (k' =? k)%string then Some c else cs_get r k
  end.

(** The store [cs[k] = c] in the map. *)
Fixpoint cs_put (cs : CommandSet) (k : string) (c : CommandHandler)
  : CommandSet :=
  match cs with
  | [] => [(k, c)]
  | (k', c') :: r =>
      if (k' =? k)%string then (k, c) :: r else (k', c') :: cs_put r k c
  end.

Definition AddCommandHandler (cs : CommandSet) (c : CommandHandler)
  : CommandSet :=
  let n := fst (Describe c) in
  cs_put cs n c.

(** The command sets that [NewCommandSet] and [AddCommandHandler] build:
    distinct keys, each the name of its handler. *)
Definition cs_wf (cs : CommandSet) : Prop :=
  NoDup (map fst cs) /\
  Forall (fun e => fst e = fst (Describe (snd e))) cs.

(** [RawHandler] *)
Record RawHandler : Type := mkRawHandler {
  rh_Describe : string * string;
  ProcessMessage : Context -> M (option error)
}.

(** A compiled [*regexp.Regexp], seen through [FindAllStringSubmatch(s, -1)];
    [None] is the nil result of a text that does not match. *)
Definition Regexp : Type := string -> option (list (list string)).

(** [HearsHandler]; [Hears] may return a nil pointer. *)
Record HearsHandler : Type := mkHearsHandler {
  hh_Describe : string * string;
  Hears : option Regexp;
  Heard : Context -> list (list string) -> M unit
}.

(** [BackgroundHandler] *)
Record BackgroundHandler : Type := mkBackgroundHandler {
  bh_Describe : string * string;
  StartBackground : Context -> M unit
}.

(** The handler given to [Loop], with the capabilities that the type
    assertions [h.(RawHandler)], [h.(HearsHandler)], [h.(CommandHandler)]
    and [h.(BackgroundHandler)] find. *)
Record Handler : Type := mkHandler {
  h_Describe : string * string;
  asRawHandler : option RawHandler;
  asHearsHandler : option HearsHandler;
  asCommandHandler : option CommandHandler;
  asBackgroundHandler : option BackgroundHandler
}.

(** ** [byAlpha] and [sort.Sort] *)

Record byAlpha : Type := mkByAlpha {
  ns : list string;
  ds : list string;
  chs : list CommandHandler
}.

Definition Len (b : byAlpha) : nat := List.length (ns b).

(** [l[i] = v] for [i] in range. *)
Fixpoint store {A : Type} (l : list A) (i : nat) (v : A) : list A :=
  match l, i with
  | [], _ => []
  | _ :: r, 0 => v :: r
  | x :: r, S i' => x :: store r i' v
  end.

Definition obind {A B : Type} (o : option A) (k : A -> option B) : option B :=
  match o with
  | Some a => k a
  | None => None
  end.

Notation "'let?' x ':=' o 'in' k" := (obind o (fun x => k))
  (at level 10, x name, o at level 100, k at level 200).

(** [l[i], l[j] = x, y]: both stores are checked, then done from left to
    right; [None] is the index-out-of-range panic. *)
Definition assign2 {A : Type} (l : list A) (i j : nat) (x y : A)
  : option (list A) :=
  if ((i <? List.length l) && (j <? List.length l))%nat
  then Some (store (store l i x) j y)
  else None.

(** [byAlpha.Less(i, j)] *)
Definition Less (b : byAlpha) (i j : nat) : option bool :=
  let? ni := nth_error (ns b) i in
  let? nj := nth_error (ns b) j in
  Some (ni <? nj)%string.

(** [byAlpha.Swap(i, j)], statement by statement: the second
    statement reads [b.ns[j]] after the first one has stored into it. *)
Definition Swap (b : byAlpha) (i j : nat) : option byAlpha :=
  let? nj := nth_error (ns b) j in
  let? ni := nth_error (ns b) i in
  let? ns1 := assign2 (ns b) i j nj ni in
  let? nj1 := nth_error ns1 j in
  let? di := nth_error (ds b) i in
  let? ds1 := assign2 (ds b) i j nj1 di in
  let? cj := nth_error (chs b) j in
  let? ci := nth_error (chs b) i in
  let? chs1 := assign2 (chs b) i j cj ci in
  Some (mkByAlpha ns1 ds1 chs1).

(** [sort.Sort] reaches its data only through [Len], [Less] and [Swap].
    A run of it on data of a given length is a finite tree of such calls,
    each [Less] answered by the data. *)
Inductive SortProc : Type :=
| sp_Return
| sp_Less (i j : nat) (k : bool -> SortProc)
| sp_Swap (i j : nat) (k : SortProc).

(** The run of a sort on a [byAlpha]. *)
Fixpoint run_sort (p : SortProc) (b : byAlpha) : option byAlpha :=
  match p with
  | sp_Return => Some b
  | sp_Less i j k =>
      match Less b i j with
      | Some r => run_sort (k r) b
      | None => None
      end
  | sp_Swap i j k =>
      match Swap b i j with
      | Some b' => run_sort k b'
      | None => None
      end
  end.

(** The same run on a plain slice of strings with the order [<] and an
    honest swap ([sort.StringSlice]). *)
Definition strings_Less (l : list string) (i j : nat) : option bool :=
  let? x := nth_error l i in
  let? y := nth_error l j in
  Some (x <? y)%string.

Definition strings_Swap (l : list string) (i j : nat) : option (list string) :=
  let? y := nth_error l j in
  let? x := nth_error l i in
  assign2 l i j y x.

Fixpoint run_sort_strings (p : SortProc) (l : list string)
  : option (list string) :=
  match p with
  | sp_Return => Some l
  | sp_Less i j k =>
      match strings_Less l i j with
      | Some r => run_sort_strings (k r) l
      | None => None
      end
  | sp_Swap i j k =>
      match strings_Swap l i j with
      | Some l' => run_sort_strings k l'
      | None => None
      end
  end.

(** No element is smaller than its predecessor. *)
Fixpoint ascending (l : list string) : bool :=
  match l with
  | [] => true
  | x :: r =>
      match r with
      | [] => true
      | y :: _ => negb (y <? x)%string && ascending r
      end
  end.

(** A sort does its work on a slice: it stays in range and leaves the
    slice in ascending order. *)
Definition sorts (p : SortProc) (l : list string) : bool :=
  match run_sort_strings p l with
  | Some l' => ascending l'
  | None => false
  end.

(** [insertionSort(data, 0, n)] of package sort, which is what [sort.Sort]
    runs on a short slice:
    [for i := 1; i < n; i++ {
       for j := i; j > 0 && data.Less(j, j-1); j-- { data.Swap(j, j-1) } }] *)
Fixpoint insertion_inner (j : nat) (k : SortProc) : SortProc :=
  match j with
  | 0 => k
  | S j' =>
      sp_Less j j' (fun lt => if lt then sp_Swap j j' (insertion_inner j' k)
                              else k)
  end.

Fixpoint insertion_outer (todo i : nat) : SortProc :=
  match todo with
  | 0 => sp_Return
  | S todo' => insertion_inner i (insertion_outer todo' (S i))
  end.

Definition insertionSort (n : nat) : SortProc := insertion_outer (n - 1) 1.

(** ** Tokenizing a command line *)

Definition dquote : ascii := "034"%char.
Definition squote : ascii := "039"%char.
Definition backslash : ascii := "092"%char.

Definition isSpace (r : ascii) : bool :=
  (r =? " ")%char || (r =? "009")%char || (r =? "013")%char ||
  (r =? "010")%char.

Record lexer : Type := mkLexer {
  lx_args : list string;
  lx_buf : string;
  lx_escaped : bool;
  lx_doubleQuoted : bool;
  lx_singleQuoted : bool
}.

Definition push (buf : string) (r : ascii) : string :=
  (buf ++ String r EmptyString)%string.

Definition lex_step (s : lexer) (r : ascii) : lexer :=
  let (a, buf, escaped, dq, sq) := s in
  if escaped then mkLexer a (push buf r) false dq sq
  else if (r =? backslash)%char then
    if sq then mkLexer a (push buf r) escaped dq sq
    else mkLexer a buf true dq sq
  else if isSpace r then
    if sq || dq then mkLexer a (push buf r) escaped dq sq
    else if negb (buf =? EmptyString)%string
         then mkLexer (a ++ [buf]) EmptyString escaped dq sq
         else s
  else if (r =? dquote)%char && negb sq then mkLexer a buf escaped (negb dq) sq
  else if (r =? squote)%char && negb dq then mkLexer a buf escaped dq (negb sq)
  else mkLexer a (push buf r) escaped dq sq.

Definition lex_finish (s : lexer) : option (list string) :=
  let a := if negb (lx_buf s =? EmptyString)%string
           then lx_args s ++ [lx_buf s] else lx_args s in
  if lx_escaped s || lx_singleQuoted s || lx_doubleQuoted s
  then None
  else Some a.

(** Modelled from the spec: [shellwords.Parse] belongs to the package
    github.com/mattn/go-shellwords, which is not part of the sources.  The
    text is split at white space; a backslash outside single quotes takes
    the next character as it is; single and double quotes group words and
    are removed; a text that ends inside a quotation or after a backslash
    is refused ([None] stands for the nil slice returned with the error).
    A successful parse returns a slice that is not nil. *)
Definition shellwords_Parse (line : string) : option (list string) :=
  lex_finish
    (fold_left lex_step (list_ascii_of_string line)
               (mkLexer [] EmptyString false false false)).

(** ** Process status for the dispatch loop *)

(** A goroutine that panics without recovering ends the whole process. *)
Inductive Process : Type :=
| Alive (wd : World)
| Crashed (v : PanicValue).

Section Dispatch.

(** [shellwords.Parse], as used by the command path. *)
Variable Parse : string -> option (list string).

(** [cmdUsage(h, name, nil).Error()]: [cmdUsage] is declared elsewhere in
    the package; it is taken as a function that returns the text of the
    usage message. *)
Variable cmdUsage : CommandHandler -> string -> string.

(** [m.Parse()], declared in message.go. *)
Variable Message_Parse : M (option error).

(** The calls that [sort.Sort] makes on data of length [n]. *)
Variable sort_Sort : nat -> SortProc.

(** *** [CommandSet.List] *)

(** The body of the [for _, ch := range *cs] loop of [List]. *)
Definition List_step
  (acc : list string * list string * list CommandHandler * bool)
  (e : string * CommandHandler)
  : list string * list string * list CommandHandler * bool :=
  let '(cmds, descs, hs, hasHelp) := acc in
  let ch := snd e in
  let (n, d) := Describe ch in
  if (n =? "help")%string then (cmds, descs, hs, true)
  else (cmds ++ [n], descs ++ [d], hs ++ [ch], hasHelp).

Definition List (cs : CommandSet)
  : outcome (list string * list string * list CommandHandler) :=
  let '(cmds, descs, hs, hasHelp) :=
    fold_left List_step cs ([], [], [], false) in
  let sorted := mkByAlpha cmds descs hs in
  match run_sort (sort_Sort (Len sorted)) sorted with
  | None => Panicked indexOutOfRange
  | Some sorted =>
      if hasHelp then
        match cs_get cs "help" with
        | None => Panicked nilDeref
        | Some hh =>
            let hd := snd (Describe hh) in
            Done ("help" :: ns sorted, hd :: ds sorted, hh :: chs sorted)
        end
      else Done (ns sorted, ds sorted, chs sorted)
  end.

(** *** The command path *)

(** [if m.args == nil { m.args, err = shellwords.Parse(m.Text);
     if err != nil { return ErrBadCLI } }]: the message afterwards, or
    [None] when the function returns [ErrBadCLI] (the message then still
    has nil [args]). *)
Definition parseArgs (m : Message) : option Message :=
  match args m with
  | Some _ => Some m
  | None =>
      match Parse (Text m) with
      | Some a => Some (set_args m (Some a))
      | None => None
      end
  end.

(** [defer glogPanic()] around a body whose function returns [zero] when a
    panic is recovered. *)
Definition glogPanic {A : Type} (zero : A) (r : outcome A * State)
  : A * State :=
  match r with
  | (Done a, st) => (a, st)
  | (Panicked v, st) =>
      match v with
      | PanicError flag_ErrHelp => (zero, st)
      | _ => (zero, set_world st (logPanic v (st_world st)))
      end
  end.

Definition runCommandHandler (ctx : Context) (h : CommandHandler) (st : State)
  : option error * State :=
  glogPanic None
    match parseArgs (st_m st) with
    | None => (Done (Some ErrBadCLI), st)
    | Some m =>
        match args m with
        | Some (name :: _) =>
            let m := set_flags m (Some EmptyString)
                               (Some (NewFlagSet name ContinueOnError)) in
            (err <- Command h ctx ;;
             match err with
             | Some flag_ErrHelp =>
                 Fprint (cmdUsage h name) ;;; ret (Some ErrSkipHears)
             | _ => ret err
             end) (set_m st m)
        | _ =>
            (Done (Some (errorString
                     "command handler called with no possible arguments")),
             set_m st m)
        end
    end.

(** The body of the [for name, cmd := range *cs] loop of [NextCommand]. *)
Definition NextCommand_step (arg0 : string)
  (acc : list CommandHandler * list string * list CommandHandler)
  (e : string * CommandHandler)
  : list CommandHandler * list string * list CommandHandler :=
  let '(matches, matchesns, ematches) := acc in
  let (name, cmd) := e in
  let '(matches, matchesns) :=
    if prefix arg0 name then (matches ++ [cmd], matchesns ++ [name])
    else (matches, matchesns) in
  let ematches :=
    if (name =? arg0)%string then ematches ++ [cmd] else ematches in
  (matches, matchesns, ematches).

(** [fmt.Errorf] at its three uses. *)
Definition errSubCommandMissing (cmds : list string) : error :=
  errorString ("required sub-command missing: " ++ String.concat ", " cmds)%string.

Definition errMultipleExact (arg0 : string) : error :=
  errorString ("multiple exact matches for " ++ arg0)%string.

Definition errAmbiguous (arg0 : string) (matchesns : list string) : error :=
  errorString
    ("ambigious command, " ++ arg0 ++ ": " ++ String.concat ", " matchesns)%string.

(** [func (cs *CommandSet) NextCommand(ctx, w, m) error]; [cs] is a
    pointer, [None] being nil. *)
Definition NextCommand (cs : option CommandSet) (ctx : Context)
  : M (option error) :=
  fun st =>
    match parseArgs (st_m st) with
    | None => (Done (Some ErrBadCLI), st)
    | Some m =>
        let st := set_m st m in
        match args m with
        | Some (arg0 :: _) =>
            match cs with
            | None => (Panicked nilDeref, st)
            | Some cs =>
                let '(matches, matchesns, ematches) :=
                  fold_left (NextCommand_step arg0) cs ([], [], []) in
                match matches, ematches with
                | [], [] => (Done (Some ErrUnknownCommand), st)
                | _, _ :: _ :: _ => (Done (Some (errMultipleExact arg0)), st)
                | _, [h] =>
                    let (err, st) := runCommandHandler ctx h st in
                    (Done err, st)
                | [h], [] =>
                    let (err, st) := runCommandHandler ctx h st in
                    (Done err, st)
                | _, [] => (Done (Some (errAmbiguous arg0 matchesns)), st)
                end
            end
        | _ =>
            match cs with
            | None => (Panicked nilDeref, st)
            | Some cs =>
                match List cs with
                | Done (cmds, _, _) =>
                    (Done (Some (errSubCommandMissing cmds)), st)
                | Panicked v => (Panicked v, st)
                end
            end
        end
    end.

(** *** [baseCommandHandler] *)

Record baseCommandHandler : Type := mkBaseCommandHandler {
  bch_Handler : string * string;
  bcf : CommandFunc;
  subs : option CommandSet
}.

Definition defaultCommandHandler : CommandFunc :=
  fun ctx =>
    err <- Message_Parse ;;
    match err with
    | Some e => ret (Some e)
    | None => ret (ErrNextCommand ctx)
    end.

(** [NewCommandHandler(name, desc, f, cs)]; a nil [f] is [None]. *)
Definition NewCommandHandler (name desc : string) (f : option CommandFunc)
  (cs : option CommandSet) : baseCommandHandler :=
  let f := match f with
           | None => defaultCommandHandler
           | Some f => f
           end in
  mkBaseCommandHandler (name, desc) f cs.

(** [func (bch *baseCommandHandler) Command(ctx, w, m) error] *)
Definition bch_Command (bch : baseCommandHandler) (ctx : Context)
  : M (option error) :=
  err <- bcf bch ctx ;;
  match err with
  | Some (errNextCommand ctx') => NextCommand (subs bch) ctx'
  | _ => ret err
  end.

Definition SubCommands (bch : baseCommandHandler) : option CommandSet :=
  subs bch.

(** A [*baseCommandHandler] as a [CommandHandler]. *)
Definition bch_CommandHandler (bch : baseCommandHandler) : CommandHandler :=
  mkCommandHandler (bch_Handler bch) (bch_Command bch).

(** *** Running handlers, and one turn of [Loop] *)

(** [runRawHandler]: the error of [ProcessMessage] is dropped. *)
Definition runRawHandler (ctx : Context) (h : RawHandler) (st : State)
  : bool * State :=
  glogPanic false ((ProcessMessage h ctx ;;; ret false) st).

(** [runHearsHandler]: the result, the state, and the goroutines started
    by [go h.Heard(ctx, w, m, mtchs)].  The deferred [glogPanic] belongs
    to the goroutine of [runHearsHandler], not to the one it starts. *)
Definition runHearsHandler (ctx : Context) (h : HearsHandler) (st : State)
  : (bool * list (M unit)) * State :=
  glogPanic (false, [])
    match Hears h with
    | None => (Panicked nilDeref, st)
    | Some re =>
        match re (Text (st_m st)) with
        | Some mtchs => (Done (true, [Heard h ctx mtchs]), st)
        | None => (Done (false, []), st)
        end
    end.

(** The goroutine of [runBackgroundHandler]. *)
Definition runBackgroundHandler (ctx : Context) (h : BackgroundHandler)
  (st : State) : unit * State :=
  glogPanic tt (StartBackground h ctx st).

(** A goroutine whose function has returned leaves the process alive; one
    that ends in a panic ends the process. *)
Definition goroutine (body : M unit) (p : Process * State) : Process * State :=
  match p with
  | (Crashed v, st) => (Crashed v, st)
  | (Alive _, st) =>
      match body st with
      | (Done _, st') => (Alive (st_world st'), st')
      | (Panicked v, st') => (Crashed v, st')
      end
  end.

(** The [case mrw := <-mrws] branch of [Loop] for one message, with the
    goroutines it starts run one after the other: raw, hears, command,
    then those started by the hears goroutine.  The three share [mrw.w]
    and [mrw.m]. *)
Definition Loop_message (ctx : Context) (h : Handler) (an_ : string)
  (w : responseWriter) (m : Message) (wd : World) : Process :=
  let wd := incRx (an_, Channel m, From m) wd in
  let st := mkState wd w m in
  let p := (Alive wd, st) in
  let p :=
    match asRawHandler h with
    | Some rh =>
        goroutine (fun st => let (_, st') := runRawHandler ctx rh st in
                             (Done tt, st')) p
    | None => p
    end in
  let '(p, heard) :=
    match asHearsHandler h, p with
    | Some hh, (Alive _, st) =>
        let '((_, gs), st') := runHearsHandler ctx hh st in
        ((Alive (st_world st'), st'), gs)
    | _, _ => (p, [])
    end in
  let p :=
    match asCommandHandler h with
    | Some ch =>
        goroutine (fun st => let (_, st') := runCommandHandler ctx ch st in
                             (Done tt, st')) p
    | None => p
    end in
  fst (fold_left (fun p g => goroutine g p) heard p).

(** The messages that one adapter delivers, taken one after the other by
    the loop; each comes with the writer that the forwarding goroutine
    made for it. *)
Fixpoint Loop_messages (ctx : Context) (h : Handler) (a : Adapter)
  (an_ : string) (ms : list Message) (wd : World) : Process :=
  match ms with
  | [] => Alive wd
  | m :: ms' =>
      let rw := newResponseWriter (adapterSender a) m an_ in
      match Loop_message ctx h an_ rw m wd with
      | Alive wd' => Loop_messages ctx h a an_ ms' wd'
      | Crashed v => Crashed v
      end
  end.

(** *** Handlers and command sets used as examples *)

(** A command that answers with its own name. *)
Definition echoCommand (name desc : string) : CommandHandler :=
  mkCommandHandler (name, desc) (fun _ => Fprint name ;;; ret None).

(** A command whose flag parsing was given [-help]. *)
Definition helpRequested (name desc : string) : CommandHandler :=
  mkCommandHandler (name, desc) (fun _ => ret (Some flag_ErrHelp)).

(** A command with sub-commands and the default function. *)
Definition withSubs (name desc : string) (cs : CommandSet) : CommandHandler :=
  bch_CommandHandler (NewCommandHandler name desc None (Some cs)).

Definition deployCommands : CommandSet :=
  AddCommandHandler
    (AddCommandHandler
       (AddCommandHandler NewCommandSet (echoCommand "deploy" "roll out"))
       (echoCommand "help" "show help"))
    (echoCommand "delete" "remove").

Definition inbound (text : string) : Message :=
  mkMessage "room" "alice" EmptyString "u1" false true text None None None.

Definition inboundState (text : string) : State :=
  mkState emptyWorld
          (newResponseWriter (adapterSender 0) (inbound text) "shell")
          (inbound text).

(** The same set with a further command whose name extends delete. *)
Definition deleteCommands : CommandSet :=
  AddCommandHandler deployCommands (echoCommand "deleted" "list removals").

(** Two commands registered in the order b, a. *)
Definition twoCommands : CommandSet :=
  AddCommandHandler
    (AddCommandHandler NewCommandSet (echoCommand "b" "second"))
    (echoCommand "a" "first").

(** A usage text for the examples. *)
Definition exampleUsage (h : CommandHandler) (name : string) : string :=
  ("usage of " ++ name ++ ": " ++ snd (Describe h))%string.

(** A flag set without flags for the examples: parsing leaves the
    arguments that follow the name of the command. *)
Definition exampleParse : M (option error) :=
  fun st =>
    match args (st_m st) with
    | Some (_ :: r) => (Done None, set_m st (set_args (st_m st) (Some r)))
    | _ => (Done None, st)
    end.

(** The pattern [^ping$]. *)
Definition pingPattern : Regexp :=
  fun s => if (s =? "ping")%string then Some [["ping"]] else None.

(** A raw handler that answers every message. *)
Definition rawSeen : RawHandler :=
  mkRawHandler ("seen", "answers every message")
               (fun _ => Fprint "seen" ;;; ret None).

(** A raw handler that panics. *)
Definition rawBoom : RawHandler :=
  mkRawHandler ("boom", "panics")
               (fun _ => panic (PanicRuntime "raw boom")).

(** A hears handler whose [Heard] panics. *)
Definition hearsBoom : HearsHandler :=
  mkHearsHandler ("pong", "panics when it hears ping") (Some pingPattern)
                 (fun _ _ => panic (PanicRuntime "heard boom")).

(** A command handler that panics. *)
Definition commandBoom : CommandHandler :=
  mkCommandHandler ("boom", "panics")
                   (fun _ => panic (PanicRuntime "command boom")).

(** A bot that answers every message and hears ping. *)
Definition earBot : Handler :=
  mkHandler ("bot", "raw and hears") (Some rawSeen) (Some hearsBoom) None None.

(** A bot whose raw and command capabilities panic. *)
Definition boomBot : Handler :=
  mkHandler ("bot", "raw and command") (Some rawBoom) None (Some commandBoom)
            None.

(** The texts handed to the adapters. *)
Definition sentTexts (wd : World) : list string :=
  map (fun x => Text (snd x)) (outbox wd).

(** Text with quotation marks. *)
Definition quoted (s : string) : string :=
  String dquote (s ++ String dquote EmptyString)%string.

Definition sayHelloWorld : string := ("say " ++ quoted "hello world")%string.

Definition sayUnterminated : string :=
  ("say " ++ String dquote "unterminated")%string.

(** *** Vocabulary of the properties *)

(** The message handed to the handler by the wrapper: a fresh flag set
    named after the command, writing into a fresh buffer. *)
Definition withFlagSet (m : Message) (name : string) : Message :=
  set_flags m (Some EmptyString) (Some (NewFlagSet name ContinueOnError)).

(** The entries of a command set whose name is [arg0], and those whose
    name starts with [arg0], in the order of the iteration. *)
Definition exactMatches (arg0 : string) (cs : CommandSet) : CommandSet :=
  filter (fun e => (fst e =? arg0)%string) cs.

Definition prefixMatches (arg0 : string) (cs : CommandSet) : CommandSet :=
  filter (fun e => prefix arg0 (fst e)) cs.

(** On a [byAlpha] whose three slices have one length, [Swap] does to the
    names what an honest swap does, and keeps the lengths. *)
Definition aligned_lengths (b : byAlpha) : Prop :=
  List.length (ds b) = List.length (ns b) /\
  List.length (chs b) = List.length (ns b).

(** [a < b] on Go strings: the order of the bytes. *)
Definition slt (a b : string) : Prop := (a <? b)%string = true.

(** The names, descriptions and handlers of the entries that are not
    called help, in the order of the iteration. *)
Definition nameOf (e : string * CommandHandler) : string :=
  fst (Describe (snd e)).

Definition descOf (e : string * CommandHandler) : string :=
  snd (Describe (snd e)).

Definition plain (cs : CommandSet) : CommandSet :=
  filter (fun e => negb (nameOf e =? "help")%string) cs.

Definition hasHelp (cs : CommandSet) : bool :=
  existsb (fun e => (nameOf e =? "help")%string) cs.

(** The registered names other than help. *)
Definition plainNames (cs : CommandSet) : list string :=
  filter (fun n => negb (n =? "help")%string) (map fst cs).

Definition handlerName (h : CommandHandler) : string := fst (Describe h).

(** A description slot of the two-command example that holds a name. *)
Definition tainted (b : byAlpha) : Prop := In "a" (ds b) \/ In "b" (ds b).

(** What every sequence of [Less] and [Swap] calls keeps true of the
    [byAlpha] of the two-command example: while the names are still b, a
    the descriptions are untouched or hold a name; once the names are a, b
    the descriptions hold a name. *)
Definition two_inv (b : byAlpha) : Prop :=
  (exists c0 c1, chs b = [c0; c1]) /\
  (exists d0 d1, ds b = [d0; d1]) /\
  ((ns b = ["b"; "a"] /\ (ds b = ["second"; "first"] \/ tainted b)) \/
   (ns b = ["a"; "b"] /\ tainted b)).

(** ** Properties *)

(** *** The response writer *)

Lemma string_of_bytes_of_string (s : string) :
  string_of_list_byte (list_byte_of_string s) = s.
Proof. apply string_of_list_byte_of_string. Qed.

Lemma Fprint_eq (s : string) (st : State) :
  Fprint s st =
  (Done (Z.of_nat (List.length (list_byte_of_string s)), None),
   mkState (Send (st_w st) context_TODO (set_Text (msg (st_w st)) s)
                 (st_world st))
           (st_w st) (st_m st)).
Proof.
  unfold Fprint, Write. rewrite string_of_bytes_of_string. reflexivity.
Qed.

(** C8: one call of [Write] hands exactly one message to the sender of the
    writer, namely the template with [Text] replaced by the bytes written;
    it does so during the call, returns [(len(bs), nil)] and leaves the
    writer, hence its template, as it was.  With an adapter as sender the
    outbox of that adapter grows by this one message; the null sender
    discards it. *)
Theorem Write_sends_one_message :
  forall (w : responseWriter) (bs : list byte) (wd : World),
    let sent := set_Text (msg w) (string_of_list_byte bs) in
    Write w bs wd =
      ((Z.of_nat (List.length bs), None), w,
       Sender_Send (w_snd w) context_TODO sent
                   (incTx (an w, Channel (msg w), From (msg w)) wd))
    /\ Text sent = string_of_list_byte bs
    /\ sent = mkMessage (Channel (msg w)) (From (msg w)) (To (msg w))
                        (UserID (msg w)) (Private (msg w)) (ToBot (msg w))
                        (string_of_list_byte bs) (args (msg w))
                        (flagOut (msg w)) (Flags (msg w))
    /\ (forall (a : Adapter) (m : Message) (n : string),
          outbox (snd (Write (mkResponseWriter (adapterSender a) m n) bs wd))
          = outbox wd ++
            [(a, context_TODO, set_Text m (string_of_list_byte bs))])
    /\ (forall (m : Message) (n : string),
          outbox (snd (Write (mkResponseWriter nullSender m n) bs wd))
          = outbox wd).
Proof.
  intros w bs wd sent. repeat split.
Qed.

(** *** The parse step *)

Lemma parseArgs_args (m m' : Message) :
  parseArgs m = Some m' -> exists a, args m' = Some a.
Proof.
  unfold parseArgs. destruct (args m) as [a|] eqn:Ha.
  - intros H. inversion H. subst. eauto.
  - destruct (Parse (Text m)) as [a|]; intros H; inversion H.
    exists a. reflexivity.
Qed.

Lemma parseArgs_parsed (m : Message) (a : list string) :
  args m = Some a -> parseArgs m = Some m.
Proof. unfold parseArgs. intros ->. reflexivity. Qed.

Lemma parseArgs_again (m m' : Message) :
  parseArgs m = Some m' -> parseArgs m' = Some m'.
Proof.
  intros H. destruct (parseArgs_args _ _ H) as [a Ha].
  exact (parseArgs_parsed _ _ Ha).
Qed.

(** *** The invocation wrapper *)

Lemma runCommandHandler_unfold (ctx : Context) (h : CommandHandler)
  (st : State) (m : Message) (name : string) (rest : list string) :
  parseArgs (st_m st) = Some m ->
  args m = Some (name :: rest) ->
  runCommandHandler ctx h st =
  glogPanic None
    match Command h ctx (set_m st (withFlagSet m name)) with
    | (Done (Some flag_ErrHelp), st2) =>
        (Fprint (cmdUsage h name) ;;; ret (Some ErrSkipHears)) st2
    | (Done err, st2) => (Done err, st2)
    | (Panicked v, st2) => (Panicked v, st2)
    end.
Proof.
  intros Hp Ha. unfold runCommandHandler. rewrite Hp, Ha.
  unfold bind, withFlagSet.
  destruct (Command h ctx _) as [[[[]|]|v] st2]; reflexivity.
Qed.

(** C6: when the handler returns [flag.ErrHelp], the wrapper writes the
    usage message of the command to the response writer (one message,
    the template of the writer with the usage text) and returns
    [ErrSkipHears]; every other result of the handler, nil included, is
    returned as it is, with the state the handler left. *)
Theorem runCommandHandler_help_or_unchanged :
  forall (ctx : Context) (h : CommandHandler) (st : State) (m : Message)
         (name : string) (rest : list string),
    parseArgs (st_m st) = Some m ->
    args m = Some (name :: rest) ->
    (forall st2,
        Command h ctx (set_m st (withFlagSet m name))
        = (Done (Some flag_ErrHelp), st2) ->
        runCommandHandler ctx h st =
        (Some ErrSkipHears,
         mkState (Send (st_w st2) context_TODO
                       (set_Text (msg (st_w st2)) (cmdUsage h name))
                       (st_world st2))
                 (st_w st2) (st_m st2)))
    /\ (forall err st2,
           Command h ctx (set_m st (withFlagSet m name)) = (Done err, st2) ->
           err <> Some flag_ErrHelp ->
           runCommandHandler ctx h st = (err, st2)).
Proof.
  intros ctx h st m name rest Hp Ha. split.
  - intros st2 Hc. rewrite (runCommandHandler_unfold ctx h st m name rest Hp Ha), Hc.
    unfold bind. rewrite Fprint_eq. reflexivity.
  - intros err st2 Hc Hne.
    rewrite (runCommandHandler_unfold ctx h st m name rest Hp Ha), Hc.
    destruct err as [[]|]; try reflexivity. contradiction.
Qed.

(** The wrapper never lets a panic of the handler out: whatever the handler
    does, the wrapper returns, and a recovered panic gives the nil error. *)
Lemma runCommandHandler_recovers (ctx : Context) (h : CommandHandler)
  (st : State) (m : Message) (name : string) (rest : list string)
  (v : PanicValue) (st2 : State) :
  parseArgs (st_m st) = Some m ->
  args m = Some (name :: rest) ->
  Command h ctx (set_m st (withFlagSet m name)) = (Panicked v, st2) ->
  fst (runCommandHandler ctx h st) = None.
Proof.
  intros Hp Ha Hc. rewrite (runCommandHandler_unfold ctx h st m name rest Hp Ha), Hc.
  simpl. destruct v as [[]|]; reflexivity.
Qed.

(** *** [baseCommandHandler.Command] *)

(** C7: [Command] of a handler made by [NewCommandHandler] runs the wrapped
    function; a result that is not the sentinel of [ErrNextCommand] is
    returned as it is (and a panic goes on as it is); on the sentinel
    [Command] returns what [NextCommand] of the command set given to
    [NewCommandHandler] returns, called with the context carried by the
    sentinel and the message as the wrapped function left it.  A nil
    function stands for [defaultCommandHandler]. *)
Theorem bch_Command_defers :
  forall (name desc : string) (f : CommandFunc) (cs : option CommandSet)
         (ctx : Context) (st : State),
    let h := NewCommandHandler name desc (Some f) cs in
    Command (bch_CommandHandler h) ctx st =
      match f ctx st with
      | (Done (Some (errNextCommand ctx')), st') => NextCommand cs ctx' st'
      | (Done err, st') => (Done err, st')
      | (Panicked v, st') => (Panicked v, st')
      end
    /\ Describe (bch_CommandHandler h) = (name, desc)
    /\ SubCommands h = cs
    /\ Command (bch_CommandHandler (NewCommandHandler name desc None cs))
               ctx st =
       match defaultCommandHandler ctx st with
       | (Done (Some (errNextCommand ctx')), st') => NextCommand cs ctx' st'
       | (Done err, st') => (Done err, st')
       | (Panicked v, st') => (Panicked v, st')
       end.
Proof.
  intros name desc f cs ctx st h. repeat split.
  - simpl. unfold bch_Command, bind. simpl.
    destruct (f ctx st) as [[[[]|]|v] st']; reflexivity.
  - simpl. unfold bch_Command, bind. simpl.
    destruct (defaultCommandHandler ctx st) as [[[[]|]|v] st']; reflexivity.
Qed.

(** *** Command resolution *)

Lemma NextCommand_fold (arg0 : string) (cs : CommandSet) :
  forall ms mns es,
    fold_left (NextCommand_step arg0) cs (ms, mns, es) =
    (ms ++ map snd (prefixMatches arg0 cs),
     mns ++ map fst (prefixMatches arg0 cs),
     es ++ map snd (exactMatches arg0 cs)).
Proof.
  induction cs as [|[k c] cs IH]; intros ms mns es; simpl.
  - rewrite !app_nil_r. reflexivity.
  - unfold prefixMatches, exactMatches in *. simpl.
    destruct (prefix arg0 k); destruct (k =? arg0)%string; simpl;
      rewrite IH, <- ?app_assoc; reflexivity.
Qed.

(** [NextCommand] once the arguments are known and not empty. *)
Lemma NextCommand_resolve (cs : CommandSet) (ctx : Context) (st : State)
  (m : Message) (arg0 : string) (rest : list string) :
  parseArgs (st_m st) = Some m ->
  args m = Some (arg0 :: rest) ->
  NextCommand (Some cs) ctx st =
  match map snd (prefixMatches arg0 cs), map snd (exactMatches arg0 cs) with
  | [], [] => (Done (Some ErrUnknownCommand), set_m st m)
  | _, _ :: _ :: _ => (Done (Some (errMultipleExact arg0)), set_m st m)
  | _, [h] =>
      let (err, st') := runCommandHandler ctx h (set_m st m) in (Done err, st')
  | [h], [] =>
      let (err, st') := runCommandHandler ctx h (set_m st m) in (Done err, st')
  | _, [] =>
      (Done (Some (errAmbiguous arg0 (map fst (prefixMatches arg0 cs)))),
       set_m st m)
  end.
Proof.
  intros Hp Ha. unfold NextCommand. rewrite Hp, Ha, NextCommand_fold.
  reflexivity.
Qed.

(** C1: when exactly one entry of the command set has the name [args[0]],
    [NextCommand] runs that entry through [runCommandHandler], whatever the
    other names are, also those of which [args[0]] is a proper prefix. *)
Theorem NextCommand_exact_match_wins :
  forall (cs : CommandSet) (ctx : Context) (st : State) (m : Message)
         (arg0 : string) (rest : list string) (k : string)
         (h : CommandHandler),
    parseArgs (st_m st) = Some m ->
    args m = Some (arg0 :: rest) ->
    exactMatches arg0 cs = [(k, h)] ->
    NextCommand (Some cs) ctx st =
    (let (err, st') := runCommandHandler ctx h (set_m st m) in
     (Done err, st')).
Proof.
  intros cs ctx st m arg0 rest k h Hp Ha He.
  rewrite (NextCommand_resolve cs ctx st m arg0 rest Hp Ha), He. simpl.
  destruct (map snd (prefixMatches arg0 cs)) as [|c [|c' l]]; reflexivity.
Qed.

Lemma string_app_assoc (a b c : string) :
  ((a ++ b) ++ c = a ++ (b ++ c))%string.
Proof.
  induction a as [|x a IH]; simpl; [reflexivity|]. rewrite IH. reflexivity.
Qed.

Lemma string_app_empty (a : string) : (a ++ EmptyString)%string = a.
Proof.
  induction a as [|x a IH]; simpl; [reflexivity|]. rewrite IH. reflexivity.
Qed.

Lemma concat_lists_member (sep : string) (l : list string) (n : string) :
  In n l ->
  exists pre post, String.concat sep l = (pre ++ n ++ post)%string.
Proof.
  induction l as [|x xs IH]; intros Hin; [contradiction|].
  destruct Hin as [->|Hin].
  - destruct xs as [|y ys].
    + exists EmptyString, EmptyString. simpl.
      rewrite string_app_empty. reflexivity.
    + exists EmptyString, (sep ++ String.concat sep (y :: ys))%string.
      reflexivity.
  - destruct xs as [|y ys]; [contradiction|].
    destruct (IH Hin) as (pre & post & E).
    exists (x ++ sep ++ pre)%string, post.
    change (String.concat sep (x :: y :: ys))
      with (x ++ sep ++ String.concat sep (y :: ys))%string.
    rewrite E, !string_app_assoc. reflexivity.
Qed.

(** C2: when no entry has the name [args[0]]: with no name starting with
    [args[0]] the result is [ErrUnknownCommand]; with exactly one, that
    entry is run through [runCommandHandler]; with more than one the result
    is the error of an ambiguous command, whose text holds the name of
    every entry that starts with [args[0]]. *)
Theorem NextCommand_prefix_resolution :
  forall (cs : CommandSet) (ctx : Context) (st : State) (m : Message)
         (arg0 : string) (rest : list string),
    parseArgs (st_m st) = Some m ->
    args m = Some (arg0 :: rest) ->
    exactMatches arg0 cs = [] ->
    (prefixMatches arg0 cs = [] ->
     NextCommand (Some cs) ctx st = (Done (Some ErrUnknownCommand), set_m st m))
    /\ (forall k h,
           prefixMatches arg0 cs = [(k, h)] ->
           NextCommand (Some cs) ctx st =
           (let (err, st') := runCommandHandler ctx h (set_m st m) in
            (Done err, st')))
    /\ (2 <= List.length (prefixMatches arg0 cs) ->
        NextCommand (Some cs) ctx st =
        (Done (Some (errAmbiguous arg0 (map fst (prefixMatches arg0 cs)))),
         set_m st m)
        /\ (forall k h,
               In (k, h) cs -> prefix arg0 k = true ->
               exists pre post,
                 Error (errAmbiguous arg0 (map fst (prefixMatches arg0 cs)))
                 = (pre ++ k ++ post)%string)).
Proof.
  intros cs ctx st m arg0 rest Hp Ha He.
  rewrite (NextCommand_resolve cs ctx st m arg0 rest Hp Ha), He. simpl.
  split; [|split].
  - intros ->. reflexivity.
  - intros k h ->. reflexivity.
  - intros Hlen. split.
    + destruct (prefixMatches arg0 cs) as [|e1 [|e2 l]]; simpl in Hlen;
        try lia. reflexivity.
    + intros k h Hin Hpre.
      assert (Hk : In k (map fst (prefixMatches arg0 cs))).
      { apply in_map_iff. exists (k, h). split; [reflexivity|].
        apply filter_In. split; assumption. }
      destruct (concat_lists_member ", " _ _ Hk) as (pre & post & E).
      exists ("ambigious command, " ++ arg0 ++ ": " ++ pre)%string, post.
      simpl Error. unfold errAmbiguous. rewrite E.
      rewrite !string_app_assoc. reflexivity.
Qed.

(** *** Slices: stores and swaps *)

Lemma store_length {A : Type} (l : list A) (i : nat) (v : A) :
  List.length (store l i v) = List.length l.
Proof.
  revert i. induction l as [|x l IH]; intros [|i]; simpl; auto.
Qed.

Lemma nth_error_store_same {A : Type} (l : list A) (i : nat) (v : A) :
  i < List.length l -> nth_error (store l i v) i = Some v.
Proof.
  revert i. induction l as [|x l IH]; intros [|i] H; simpl in *;
    try lia; [reflexivity|]. apply IH. lia.
Qed.

Lemma nth_error_store_other {A : Type} (l : list A) (i j : nat) (v : A) :
  i <> j -> nth_error (store l i v) j = nth_error l j.
Proof.
  revert i j. induction l as [|x l IH]; intros [|i] [|j] H; simpl;
    try reflexivity; try congruence. apply IH. congruence.
Qed.

Lemma nth_error_in_range {A : Type} (l : list A) (i : nat) (x : A) :
  nth_error l i = Some x -> i < List.length l.
Proof.
  intros H. apply nth_error_Some. congruence.
Qed.

Lemma nth_error_of_range {A : Type} (l : list A) (i : nat) :
  i < List.length l -> exists x, nth_error l i = Some x.
Proof.
  intros H. destruct (nth_error l i) as [x|] eqn:E; [eauto|].
  apply nth_error_None in E. lia.
Qed.

Lemma assign2_Some {A : Type} (l : list A) (i j : nat) (x y : A) :
  i < List.length l -> j < List.length l ->
  assign2 l i j x y = Some (store (store l i x) j y).
Proof.
  intros Hi Hj. unfold assign2.
  apply Nat.ltb_lt in Hi. apply Nat.ltb_lt in Hj.
  rewrite Hi, Hj. reflexivity.
Qed.

Lemma assign2_inv {A : Type} (l l' : list A) (i j : nat) (x y : A) :
  assign2 l i j x y = Some l' ->
  l' = store (store l i x) j y /\ i < List.length l /\ j < List.length l.
Proof.
  unfold assign2. intros H.
  destruct (i <? List.length l)%nat eqn:Hi;
    destruct (j <? List.length l)%nat eqn:Hj; simpl in H; inversion H.
  apply Nat.ltb_lt in Hi. apply Nat.ltb_lt in Hj. auto.
Qed.

(** Storing [x] where [y] was exchanges one [y] for one [x]. *)
Lemma store_exchanges {A : Type} (l : list A) (j : nat) (x y : A) :
  nth_error l j = Some y ->
  Permutation (y :: store l j x) (x :: l).
Proof.
  revert j. induction l as [|z l IH]; intros [|j] H; simpl in *;
    try discriminate.
  - inversion H. subst. apply perm_swap.
  - apply IH in H.
    apply perm_trans with (z :: y :: store l j x); [apply perm_swap|].
    apply perm_trans with (z :: x :: l); [|apply perm_swap].
    apply perm_skip. exact H.
Qed.

Lemma strings_Swap_inv (l l' : list string) (i j : nat) :
  strings_Swap l i j = Some l' ->
  exists x y,
    nth_error l i = Some x /\ nth_error l j = Some y /\
    l' = store (store l i y) j x.
Proof.
  unfold strings_Swap, obind. intros H.
  destruct (nth_error l j) as [y|] eqn:Ej; [|discriminate].
  destruct (nth_error l i) as [x|] eqn:Ei; [|discriminate].
  apply assign2_inv in H. destruct H as (-> & _ & _).
  exists x, y. auto.
Qed.

Lemma strings_Swap_Permutation (l l' : list string) (i j : nat) :
  strings_Swap l i j = Some l' -> Permutation l l'.
Proof.
  intros H. destruct (strings_Swap_inv _ _ _ _ H) as (x & y & Ei & Ej & ->).
  assert (Hi := nth_error_in_range _ _ _ Ei).
  assert (Hj := nth_error_in_range _ _ _ Ej).
  assert (E2 : nth_error (store l i y) j = Some y).
  { destruct (Nat.eq_dec i j) as [->|Hne].
    - apply nth_error_store_same. exact Hj.
    - rewrite nth_error_store_other by exact Hne. exact Ej. }
  apply Permutation_cons_inv with (a := y).
  apply perm_trans with (x :: store l i y).
  - apply Permutation_sym. apply store_exchanges. exact Ei.
  - apply Permutation_sym. apply store_exchanges. exact E2.
Qed.

Lemma run_sort_strings_Permutation (p : SortProc) :
  forall l l', run_sort_strings p l = Some l' -> Permutation l l'.
Proof.
  induction p as [|i j k IH|i j k IH]; intros l l' H; simpl in H.
  - inversion H. apply Permutation_refl.
  - destruct (strings_Less l i j) as [r|]; [|discriminate].
    apply (IH r). exact H.
  - destruct (strings_Swap l i j) as [l1|] eqn:E; [|discriminate].
    apply perm_trans with l1.
    + apply strings_Swap_Permutation with i j. exact E.
    + apply IH. exact H.
Qed.

Lemma Swap_names (b : byAlpha) (i j : nat) :
  aligned_lengths b ->
  match strings_Swap (ns b) i j with
  | Some l' =>
      exists b', Swap b i j = Some b' /\ ns b' = l' /\ aligned_lengths b'
  | None => Swap b i j = None
  end.
Proof.
  intros [Hd Hc]. unfold strings_Swap, Swap, obind.
  destruct (nth_error (ns b) j) as [nj|] eqn:Ej; [|reflexivity].
  destruct (nth_error (ns b) i) as [ni|] eqn:Ei; [|reflexivity].
  assert (Hi := nth_error_in_range _ _ _ Ei).
  assert (Hj := nth_error_in_range _ _ _ Ej).
  rewrite (assign2_Some _ i j nj ni Hi Hj).
  destruct (nth_error_of_range (store (store (ns b) i nj) j ni) j)
    as [nj1 E1]; [rewrite !store_length; exact Hj|].
  rewrite E1.
  destruct (nth_error_of_range (ds b) i) as [di Edi]; [lia|].
  rewrite Edi. rewrite (assign2_Some (ds b) i j nj1 di) by lia.
  destruct (nth_error_of_range (chs b) j) as [cj Ecj]; [lia|].
  destruct (nth_error_of_range (chs b) i) as [ci Eci]; [lia|].
  rewrite Ecj, Eci. rewrite (assign2_Some (chs b) i j cj ci) by lia.
  eexists. split; [reflexivity|]. split; [reflexivity|].
  unfold aligned_lengths. simpl. rewrite !store_length. auto.
Qed.

Lemma run_sort_names (p : SortProc) :
  forall b,
    aligned_lengths b ->
    match run_sort_strings p (ns b) with
    | Some l' =>
        exists b', run_sort p b = Some b' /\ ns b' = l' /\ aligned_lengths b'
    | None => run_sort p b = None
    end.
Proof.
  induction p as [|i j k IH|i j k IH]; intros b Hb; simpl.
  - exists b. auto.
  - change (Less b i j) with (strings_Less (ns b) i j).
    destruct (strings_Less (ns b) i j) as [r|]; [|reflexivity].
    apply IH. exact Hb.
  - assert (Hs := Swap_names b i j Hb).
    destruct (strings_Swap (ns b) i j) as [l1|]; [|rewrite Hs; reflexivity].
    destruct Hs as (b1 & -> & <- & Hb1).
    apply IH. exact Hb1.
Qed.

(** *** The order of strings *)

Lemma slt_lts (a b : string) : slt a b <-> String_as_OT.lt a b.
Proof.
  unfold slt, String.ltb. rewrite <- String_as_OT.cmp_lt.
  unfold String_as_OT.cmp. destruct (String.compare a b); split; congruence.
Qed.

Lemma slt_trans (a b c : string) : slt a b -> slt b c -> slt a c.
Proof.
  rewrite !slt_lts. apply String_as_OT.lt_trans.
Qed.

Lemma slt_irrefl (a : string) : ~ slt a a.
Proof.
  rewrite slt_lts. intros H.
  exact (@String_as_OT.lt_not_eq a a H eq_refl).
Qed.

Lemma not_ltb_distinct (x y : string) :
  (y <? x)%string = false -> x <> y -> slt x y.
Proof.
  unfold slt, String.ltb. intros Hyx Hne.
  rewrite String.compare_antisym in Hyx.
  destruct (String.compare x y) eqn:E; simpl in Hyx; try congruence.
  apply String.compare_eq_iff in E. contradiction.
Qed.

Lemma ascending_NoDup_sorted (l : list string) :
  ascending l = true -> NoDup l -> StronglySorted slt l.
Proof.
  intros Ha Hn. apply Sorted_StronglySorted.
  - intros a b c. apply slt_trans.
  - induction l as [|x l IH]; [constructor|].
    inversion Hn as [|x' l' Hx Hn']. subst.
    destruct l as [|y l].
    + constructor; constructor.
    + simpl in Ha. apply andb_true_iff in Ha. destruct Ha as [Hxy Ha].
      constructor.
      * apply IH; assumption.
      * constructor. apply not_ltb_distinct.
        -- apply negb_true_iff. exact Hxy.
        -- intros ->. apply Hx. left. reflexivity.
Qed.

(** *** [List] *)

Lemma List_fold (cs : CommandSet) :
  forall cmds descs hs b,
    fold_left List_step cs (cmds, descs, hs, b) =
    (cmds ++ map nameOf (plain cs), descs ++ map descOf (plain cs),
     hs ++ map snd (plain cs), b || hasHelp cs).
Proof.
  induction cs as [|[k c] cs IH]; intros cmds descs hs b; simpl.
  - rewrite !app_nil_r, orb_false_r. reflexivity.
  - unfold plain, nameOf, descOf in *. simpl.
    destruct (Describe c) as [n d] eqn:Ed. simpl.
    destruct (n =? "help")%string; simpl; rewrite IH.
    + rewrite orb_true_r. reflexivity.
    + rewrite <- !app_assoc. simpl. rewrite Ed. reflexivity.
Qed.

Lemma wf_names (cs : CommandSet) :
  cs_wf cs -> map nameOf cs = map fst cs.
Proof.
  intros [_ Hf]. induction Hf as [|e cs He Hf IH]; simpl; [reflexivity|].
  cbv beta in He. unfold nameOf at 1. rewrite <- He, IH. reflexivity.
Qed.

Lemma wf_plain_names (cs : CommandSet) :
  cs_wf cs -> map nameOf (plain cs) = plainNames cs.
Proof.
  intros [_ Hf]. unfold plain, plainNames.
  induction Hf as [|e cs He Hf IH]; [reflexivity|].
  assert (Hn : nameOf e = fst e) by (unfold nameOf; symmetry; exact He).
  cbn [filter map]. rewrite Hn.
  destruct (fst e =? "help")%string; cbn [negb map]; [exact IH|].
  rewrite IH, Hn. reflexivity.
Qed.

Lemma wf_hasHelp (cs : CommandSet) :
  cs_wf cs -> hasHelp cs = existsb (String.eqb "help") (map fst cs).
Proof.
  intros [_ Hf]. unfold hasHelp.
  induction Hf as [|e cs He Hf IH]; [reflexivity|].
  assert (Hn : nameOf e = fst e) by (unfold nameOf; symmetry; exact He).
  cbn [existsb map]. rewrite Hn, IH, (String.eqb_sym "help").
  reflexivity.
Qed.

Lemma cs_get_present (cs : CommandSet) (k : string) :
  existsb (String.eqb k) (map fst cs) = true ->
  exists c, cs_get cs k = Some c.
Proof.
  induction cs as [|[k' c'] cs IH]; simpl; [discriminate|].
  rewrite (String.eqb_sym k k').
  destruct (k' =? k)%string; simpl; eauto.
Qed.

Lemma plainNames_without_help (cs : CommandSet) :
  ~ In "help" (plainNames cs).
Proof.
  unfold plainNames. intros H. apply filter_In in H.
  destruct H as [_ H]. rewrite String.eqb_refl in H. discriminate.
Qed.

Lemma plainNames_NoDup (cs : CommandSet) :
  cs_wf cs -> NoDup (plainNames cs).
Proof.
  intros [Hn _]. apply NoDup_filter. exact Hn.
Qed.

(** The registered names are help, when it is registered, and the others. *)
Lemma names_help_and_plain (cs : CommandSet) :
  NoDup (map fst cs) ->
  Permutation
    ((if existsb (String.eqb "help") (map fst cs) then ["help"] else [])
     ++ plainNames cs)
    (map fst cs).
Proof.
  unfold plainNames. induction (map fst cs) as [|n l IH]; intros Hn.
  - apply Permutation_refl.
  - inversion Hn as [|n' l' Hnot Hn']. subst. cbn [existsb filter].
    rewrite (String.eqb_sym "help" n).
    destruct (n =? "help")%string eqn:E; cbn [orb negb app].
    + apply String.eqb_eq in E. subst n.
      assert (Hex : existsb (String.eqb "help") l = false).
      { destruct (existsb (String.eqb "help") l) eqn:Ex; [|reflexivity].
        apply existsb_exists in Ex. destruct Ex as (x & Hx & Ex).
        apply String.eqb_eq in Ex. subst x. contradiction. }
      specialize (IH Hn'). rewrite Hex in IH. cbn [app] in IH.
      apply perm_skip. exact IH.
    + specialize (IH Hn').
      apply Permutation_sym. apply Permutation_cons_app.
      apply Permutation_sym. exact IH.
Qed.

(** What [List] returns, given the slice of names that the sort leaves. *)
Lemma List_result (cs : CommandSet) (l' : list string) :
  cs_wf cs ->
  run_sort_strings (sort_Sort (List.length (plainNames cs))) (plainNames cs)
  = Some l' ->
  exists descs hs,
    List cs =
    Done ((if existsb (String.eqb "help") (map fst cs) then ["help"] else [])
          ++ l', descs, hs).
Proof.
  intros Hwf Hrun. unfold List. rewrite List_fold. cbn [app orb].
  set (b0 := mkByAlpha (map nameOf (plain cs)) (map descOf (plain cs))
                       (map snd (plain cs))).
  assert (Hb0 : aligned_lengths b0).
  { unfold aligned_lengths, b0. simpl. rewrite !length_map. auto. }
  assert (Hns : ns b0 = plainNames cs) by (apply wf_plain_names; exact Hwf).
  assert (Hr := run_sort_names (sort_Sort (Len b0)) b0 Hb0).
  unfold Len in *. rewrite Hns in *. rewrite Hrun in Hr.
  destruct Hr as (b' & -> & <- & _).
  rewrite (wf_hasHelp cs Hwf).
  destruct (existsb (String.eqb "help") (map fst cs)) eqn:Eh.
  - destruct (cs_get_present cs "help" Eh) as [hh ->]. eauto.
  - eauto.
Qed.

(** C3: for a command set as [AddCommandHandler] builds it, and a sort that
    does its work on the names, [List] returns the registered names with
    help first when it is registered, followed by the other names in
    strictly ascending order of strings. *)
Theorem List_help_first_then_sorted :
  forall cs : CommandSet,
    cs_wf cs ->
    sorts (sort_Sort (List.length (plainNames cs))) (plainNames cs) = true ->
    exists rest descs hs,
      List cs =
      Done ((if existsb (String.eqb "help") (map fst cs) then ["help"]
             else []) ++ rest, descs, hs)
      /\ Permutation
           ((if existsb (String.eqb "help") (map fst cs) then ["help"]
             else []) ++ rest) (map fst cs)
      /\ StronglySorted slt rest
      /\ ~ In "help" rest.
Proof.
  intros cs Hwf Hs. unfold sorts in Hs.
  destruct (run_sort_strings _ (plainNames cs)) as [l'|] eqn:Hrun;
    [|discriminate].
  destruct (List_result cs l' Hwf Hrun) as (descs & hs & HL).
  assert (Hp : Permutation (plainNames cs) l')
    by (eapply run_sort_strings_Permutation; exact Hrun).
  exists l', descs, hs. repeat split.
  - exact HL.
  - apply perm_trans with
      ((if existsb (String.eqb "help") (map fst cs) then ["help"] else [])
       ++ plainNames cs).
    + apply Permutation_app_head. apply Permutation_sym. exact Hp.
    + apply names_help_and_plain. apply Hwf.
  - apply ascending_NoDup_sorted; [exact Hs|].
    apply (Permutation_NoDup Hp). apply plainNames_NoDup. exact Hwf.
  - intros Hin. apply (plainNames_without_help cs).
    apply Permutation_in with l'; [apply Permutation_sym; exact Hp|exact Hin].
Qed.

(** [AddCommandHandler] keeps a command set well formed. *)
Lemma cs_put_keys (cs : CommandSet) (k : string) (c : CommandHandler) :
  forall x, In x (map fst (cs_put cs k c)) -> x = k \/ In x (map fst cs).
Proof.
  induction cs as [|[k' c'] cs IH]; simpl; intros x Hx.
  - destruct Hx as [<-|[]]. auto.
  - destruct (k' =? k)%string eqn:E; simpl in Hx.
    + apply String.eqb_eq in E. subst. destruct Hx; auto.
    + destruct Hx as [<-|Hx]; auto. destruct (IH x Hx); auto.
Qed.

Lemma cs_put_wf (cs : CommandSet) (k : string) (c : CommandHandler) :
  k = fst (Describe c) -> cs_wf cs -> cs_wf (cs_put cs k c).
Proof.
  intros Hk [Hn Hf]. induction cs as [|[k' c'] cs IH]; simpl.
  - split; [repeat constructor; auto|]. repeat constructor. exact Hk.
  - inversion Hn as [|x l Hx Hn']. inversion Hf as [|y l' Hy Hf']. subst.
    destruct (IH Hn' Hf') as [IHn IHf].
    destruct (k' =? fst (Describe c))%string eqn:E; simpl.
    + apply String.eqb_eq in E. subst k'. split.
      * constructor; assumption.
      * constructor; [reflexivity|assumption].
    + split.
      * constructor; [|exact IHn]. intros Hin.
        apply cs_put_keys in Hin. simpl in Hin. destruct Hin as [E'|Hin].
        -- rewrite E', String.eqb_refl in E. discriminate.
        -- contradiction.
      * constructor; assumption.
Qed.

Lemma AddCommandHandler_wf (cs : CommandSet) (c : CommandHandler) :
  cs_wf cs -> cs_wf (AddCommandHandler cs c).
Proof.
  intros H. unfold AddCommandHandler. apply cs_put_wf; [reflexivity|exact H].
Qed.

Lemma NewCommandSet_wf : cs_wf NewCommandSet.
Proof. split; constructor. Qed.

(** *** Panics at the invocation boundary *)

(** A panic of [ProcessMessage] is recovered and logged; [runRawHandler]
    returns false. *)
Lemma runRawHandler_recovers (ctx : Context) (h : RawHandler) (st st' : State)
  (what : string) :
  ProcessMessage h ctx st = (Panicked (PanicRuntime what), st') ->
  runRawHandler ctx h st
  = (false, set_world st' (logPanic (PanicRuntime what) (st_world st'))).
Proof.
  intros H. unfold runRawHandler, bind. rewrite H. reflexivity.
Qed.

(** A panic of [StartBackground] is recovered and logged inside the
    goroutine that [runBackgroundHandler] starts. *)
Lemma runBackgroundHandler_recovers (ctx : Context) (h : BackgroundHandler)
  (st st' : State) (what : string) :
  StartBackground h ctx st = (Panicked (PanicRuntime what), st') ->
  runBackgroundHandler ctx h st
  = (tt, set_world st' (logPanic (PanicRuntime what) (st_world st'))).
Proof.
  intros H. unfold runBackgroundHandler. rewrite H. reflexivity.
Qed.

(** A panic of [Heard] is outside [runHearsHandler]: the function has
    already returned true and handed the call to a new goroutine. *)
Lemma runHearsHandler_starts_Heard (ctx : Context) (h : HearsHandler)
  (st : State) (re : Regexp) (mtchs : list (list string)) :
  Hears h = Some re ->
  re (Text (st_m st)) = Some mtchs ->
  runHearsHandler ctx h st = ((true, [Heard h ctx mtchs]), st).
Proof.
  intros Hh Hm. unfold runHearsHandler. rewrite Hh, Hm. reflexivity.
Qed.

(** A message given to a handler without the hears capability leaves the
    process alive, whatever its raw and command capabilities do: their
    panics are recovered inside [runRawHandler] and [runCommandHandler]. *)
Lemma Loop_message_contained (ctx : Context) (h : Handler) (an_ : string)
  (w : responseWriter) (m : Message) (wd : World) :
  asHearsHandler h = None ->
  exists wd', Loop_message ctx h an_ w m wd = Alive wd'.
Proof.
  intros Hh. unfold Loop_message. rewrite Hh.
  destruct (asRawHandler h) as [rh|]; destruct (asCommandHandler h) as [ch|];
    repeat (simpl;
            match goal with
            | |- context [runRawHandler ?c ?r ?s] =>
                destruct (runRawHandler c r s)
            | |- context [runCommandHandler ?c ?r ?s] =>
                destruct (runCommandHandler c r s)
            end); simpl; eauto.
Qed.

End Dispatch.

(** ** The parse step and the tokenizer *)

Lemma runCommandHandler_parsed
  (Parse Parse' : string -> option (list string))
  (cmdUsage : CommandHandler -> string -> string)
  (ctx : Context) (h : CommandHandler) (st : State) (a : list string) :
  args (st_m st) = Some a ->
  runCommandHandler Parse cmdUsage ctx h st =
  runCommandHandler Parse' cmdUsage ctx h st.
Proof.
  intros Ha. unfold runCommandHandler, parseArgs. rewrite Ha. reflexivity.
Qed.

Lemma NextCommand_parsed
  (Parse Parse' : string -> option (list string))
  (cmdUsage : CommandHandler -> string -> string)
  (sort_Sort : nat -> SortProc)
  (cs : option CommandSet) (ctx : Context) (st : State) (a : list string) :
  args (st_m st) = Some a ->
  NextCommand Parse cmdUsage sort_Sort cs ctx st =
  NextCommand Parse' cmdUsage sort_Sort cs ctx st.
Proof.
  intros Ha. unfold NextCommand, parseArgs. rewrite Ha.
  cbv beta iota zeta. rewrite Ha.
  destruct a as [|arg0 rest]; [reflexivity|].
  destruct cs as [cs|]; [|reflexivity].
  destruct (fold_left (NextCommand_step arg0) cs ([], [], []))
    as [[ms mns] es].
  assert (Hst : args (st_m (set_m st (st_m st))) = Some (arg0 :: rest))
    by exact Ha.
  destruct ms as [|h1 [|h2 ms]]; destruct es as [|e1 [|e2 es]];
    try reflexivity;
    rewrite (runCommandHandler_parsed Parse Parse' cmdUsage ctx _ _ _ Hst);
    reflexivity.
Qed.

(** C5: the arguments are parsed from [Text] only while [args] is nil.  On
    a message whose [args] is set, the parse step changes nothing and
    neither [runCommandHandler] nor [NextCommand] asks the tokenizer
    (their results are the same with any other tokenizer); the parse step
    done twice gives what it gives done once, and a message that went
    through it has its [args] set. *)
Theorem parseArgs_at_most_once :
  forall (Parse Parse' : string -> option (list string))
         (cmdUsage : CommandHandler -> string -> string)
         (sort_Sort : nat -> SortProc)
         (m : Message) (a : list string)
         (ctx : Context) (h : CommandHandler) (cs : option CommandSet)
         (st : State),
    let parsed := set_args m (Some a) in
    parseArgs Parse parsed = Some parsed
    /\ runCommandHandler Parse cmdUsage ctx h (set_m st parsed)
       = runCommandHandler Parse' cmdUsage ctx h (set_m st parsed)
    /\ NextCommand Parse cmdUsage sort_Sort cs ctx (set_m st parsed)
       = NextCommand Parse' cmdUsage sort_Sort cs ctx (set_m st parsed)
    /\ obind (parseArgs Parse m) (parseArgs Parse) = parseArgs Parse m
    /\ match parseArgs Parse m with
       | Some m1 =>
           (exists a1, args m1 = Some a1) /\ parseArgs Parse' m1 = Some m1
       | None => args m = None /\ Parse (Text m) = None
       end.
Proof.
  intros Parse Parse' cmdUsage sort_Sort m a ctx h cs st parsed.
  split; [reflexivity|].
  split; [apply runCommandHandler_parsed with a; reflexivity|].
  split; [apply NextCommand_parsed with a; reflexivity|].
  split.
  - destruct (parseArgs Parse m) as [m1|] eqn:E; [|reflexivity].
    simpl. apply (parseArgs_again Parse m m1 E).
  - destruct (parseArgs Parse m) as [m1|] eqn:E.
    + destruct (parseArgs_args Parse m m1 E) as [a1 Ha1].
      split; [eauto|]. apply (parseArgs_parsed Parse' m1 a1 Ha1).
    + unfold parseArgs in E. destruct (args m); [discriminate|].
      destruct (Parse (Text m)); [discriminate|]. auto.
Qed.

(** C4: with the tokenizer, a message with nil [args] whose text is say
    followed by hello world between double quotes gets the two arguments
    say and hello world; the text say followed by a double quote and
    unterminated is refused; and whenever the text of a
    message with nil [args] is refused, [runCommandHandler] and
    [NextCommand] return [ErrBadCLI] and leave the state as it was, for
    every handler and every command set: no handler has run. *)
Theorem bad_command_line_is_ErrBadCLI :
  (forall m : Message,
      parseArgs shellwords_Parse (set_args (set_Text m sayHelloWorld) None)
      = Some (set_args (set_Text m sayHelloWorld)
                       (Some ["say"; "hello world"])))
  /\ shellwords_Parse sayUnterminated = None
  /\ (forall (Parse : string -> option (list string))
            (cmdUsage : CommandHandler -> string -> string)
            (sort_Sort : nat -> SortProc)
            (ctx : Context) (h : CommandHandler) (cs : option CommandSet)
            (st : State),
         args (st_m st) = None ->
         Parse (Text (st_m st)) = None ->
         runCommandHandler Parse cmdUsage ctx h st = (Some ErrBadCLI, st)
         /\ NextCommand Parse cmdUsage sort_Sort cs ctx st
            = (Done (Some ErrBadCLI), st)).
Proof.
  split; [reflexivity|]. split; [reflexivity|].
  intros Parse cmdUsage sort_Sort ctx h cs st Ha Hp.
  unfold runCommandHandler, NextCommand, parseArgs. rewrite Ha, Hp.
  split; reflexivity.
Qed.

Lemma bad_command_line_is_ErrBadCLI_witness :
  runCommandHandler shellwords_Parse exampleUsage context_Background
                    (echoCommand "say" "repeat") (inboundState sayUnterminated)
  = (Some ErrBadCLI, inboundState sayUnterminated)
  /\ NextCommand shellwords_Parse exampleUsage insertionSort
                 (Some deployCommands) context_Background
                 (inboundState sayUnterminated)
     = (Done (Some ErrBadCLI), inboundState sayUnterminated).
Proof.
  apply (proj2 (proj2 bad_command_line_is_ErrBadCLI)); reflexivity.
Defined.

(** ** The insertion sort of package sort does its work *)

Lemma ascending_app_l (a b : list string) :
  ascending (a ++ b) = true -> ascending a = true.
Proof.
  induction a as [|x a IH]; intros H; [reflexivity|].
  destruct a as [|y a]; [reflexivity|].
  simpl in H. apply andb_true_iff in H. destruct H as [Hxy H].
  simpl. rewrite Hxy. simpl. apply IH. exact H.
Qed.

Lemma ascending_app_r (a b : list string) :
  ascending (a ++ b) = true -> ascending b = true.
Proof.
  induction a as [|x a IH]; intros H; [exact H|].
  apply IH. simpl in H. destruct (a ++ b) as [|y r]; [reflexivity|].
  apply andb_true_iff in H. apply H.
Qed.

Lemma ascending_bridge (a : list string) (z x : string) (b : list string) :
  ascending (a ++ [z]) = true ->
  ascending (x :: b) = true ->
  (x <? z)%string = false ->
  ascending (a ++ z :: x :: b) = true.
Proof.
  intros Ha Hb Hzx. induction a as [|y a IH].
  - simpl. rewrite Hzx. simpl. exact Hb.
  - assert (Ht : ascending (a ++ [z]) = true)
      by (apply (ascending_app_r [y]); exact Ha).
    specialize (IH Ht).
    change ((y :: a) ++ z :: x :: b) with (y :: (a ++ z :: x :: b)).
    change ((y :: a) ++ [z]) with (y :: (a ++ [z])) in Ha.
    destruct a as [|y' a]; simpl in *.
    + apply andb_true_iff in Ha. destruct Ha as [Hyz _].
      rewrite Hyz, Hzx. simpl. exact Hb.
    + apply andb_true_iff in Ha. destruct Ha as [Hyy _].
      rewrite Hyy. simpl. exact IH.
Qed.

Lemma ltb_asym (x z : string) :
  (x <? z)%string = true -> (z <? x)%string = false.
Proof.
  intros H. destruct (z <? x)%string eqn:E; [|reflexivity].
  exfalso. apply (slt_irrefl x). apply slt_trans with z; assumption.
Qed.

Lemma nth_error_at_length {A : Type} (a : list A) (z : A) (t : list A) :
  nth_error (a ++ z :: t) (List.length a) = Some z.
Proof.
  induction a as [|c a IH]; simpl; [reflexivity|exact IH].
Qed.

Lemma strings_Swap_cons (c : string) (l : list string) (i j : nat) :
  strings_Swap (c :: l) (S i) (S j) = option_map (cons c) (strings_Swap l i j).
Proof.
  unfold strings_Swap, obind. simpl.
  destruct (nth_error l j) as [y|]; [|reflexivity].
  destruct (nth_error l i) as [x|]; [|reflexivity].
  unfold assign2. simpl.
  change (S i <? S (List.length l))%nat with (i <? List.length l)%nat.
  change (S j <? S (List.length l))%nat with (j <? List.length l)%nat.
  destruct ((i <? List.length l)%nat && (j <? List.length l)%nat);
    reflexivity.
Qed.

(** [Swap(j, j-1)] exchanges two neighbours. *)
Lemma strings_Swap_neighbours (a : list string) (z x : string)
  (t : list string) :
  strings_Swap (a ++ z :: x :: t) (S (List.length a)) (List.length a)
  = Some (a ++ x :: z :: t).
Proof.
  induction a as [|c a IH].
  - reflexivity.
  - change ((c :: a) ++ z :: x :: t) with (c :: (a ++ z :: x :: t)).
    change (List.length (c :: a)) with (S (List.length a)).
    rewrite strings_Swap_cons, IH. reflexivity.
Qed.

Lemma strings_Less_neighbours (a : list string) (z x : string)
  (t : list string) :
  strings_Less (a ++ z :: x :: t) (S (List.length a)) (List.length a)
  = Some (x <? z)%string.
Proof.
  unfold strings_Less, obind.
  rewrite (nth_error_at_length a z (x :: t)).
  replace (a ++ z :: x :: t) with ((a ++ [z]) ++ x :: t)
    by (rewrite <- app_assoc; reflexivity).
  replace (S (List.length a)) with (List.length (a ++ [z]))
    by (rewrite length_app; simpl; lia).
  rewrite nth_error_at_length. reflexivity.
Qed.

(** The inner loop: [x] stands at index [length a], after the ascending
    [a] and before [b]; it comes to rest somewhere in [a]. *)
Lemma insertion_inner_run (k : SortProc) (x : string) (rest : list string) :
  forall (a b : list string),
    ascending (a ++ b) = true ->
    ascending (x :: b) = true ->
    exists r,
      List.length r = List.length (a ++ x :: b)
      /\ ascending r = true
      /\ run_sort_strings (insertion_inner (List.length a) k)
                          (a ++ x :: b ++ rest)
         = run_sort_strings k (r ++ rest).
Proof.
  induction a as [|z a IH] using rev_ind; intros b Hab Hxb.
  - exists (x :: b). repeat split; auto.
  - assert (El : List.length (a ++ [z]) = S (List.length a))
      by (rewrite length_app; simpl; lia).
    rewrite El. cbn [insertion_inner run_sort_strings].
    replace ((a ++ [z]) ++ x :: b ++ rest) with (a ++ z :: x :: b ++ rest)
      by (rewrite <- app_assoc; reflexivity).
    rewrite strings_Less_neighbours.
    destruct (x <? z)%string eqn:Hxz.
    + cbn [run_sort_strings]. rewrite strings_Swap_neighbours.
      rewrite <- app_assoc in Hab. cbn [app] in Hab.
      destruct (IH (z :: b)) as (r & Hlen & Hr & Hrun).
      * exact Hab.
      * change (ascending (x :: z :: b))
          with (negb (z <? x)%string && ascending (z :: b)).
        rewrite (ltb_asym x z Hxz). cbn [negb andb].
        apply (ascending_app_r a). exact Hab.
      * exists r. split; [|split; [exact Hr|exact Hrun]].
        rewrite Hlen, !length_app. simpl. lia.
    + exists ((a ++ [z]) ++ x :: b). split; [reflexivity|]. split.
      * rewrite <- app_assoc. cbn [app]. apply ascending_bridge.
        -- apply (ascending_app_l _ b). exact Hab.
        -- exact Hxb.
        -- exact Hxz.
      * rewrite <- !app_assoc. reflexivity.
Qed.

(** The outer loop: the first [i] elements are ascending, [todo] remain. *)
Lemma insertion_outer_run :
  forall (todo : nat) (done rest : list string),
    List.length rest = todo ->
    ascending done = true ->
    exists r,
      run_sort_strings (insertion_outer todo (List.length done))
                       (done ++ rest) = Some r
      /\ ascending r = true.
Proof.
  induction todo as [|todo IH]; intros done rest Hlen Hd.
  - destruct rest; [|discriminate]. rewrite app_nil_r.
    exists done. auto.
  - destruct rest as [|x rest]; [discriminate|].
    cbn [insertion_outer].
    destruct (insertion_inner_run
                (insertion_outer todo (S (List.length done))) x rest
                done [])
      as (r & Hr & Hasc & Hrun).
    + rewrite app_nil_r. exact Hd.
    + reflexivity.
    + cbn [app] in Hrun. rewrite Hrun.
      replace (S (List.length done)) with (List.length r)
        by (rewrite Hr, length_app; simpl; lia).
      apply IH; [|exact Hasc]. simpl in Hlen. lia.
Qed.

(** [insertionSort] stays in range and leaves every slice ascending. *)
Lemma insertionSort_sorts (l : list string) :
  sorts (insertionSort (List.length l)) l = true.
Proof.
  unfold sorts, insertionSort. destruct l as [|x l]; [reflexivity|].
  destruct (insertion_outer_run (List.length l) [x] l eq_refl eq_refl)
    as (r & Hrun & Hr).
  replace (List.length (x :: l) - 1) with (List.length l) by (simpl; lia).
  change (x :: l) with ([x] ++ l).
  change 1 with (List.length [x]).
  rewrite Hrun. exact Hr.
Qed.

(** ** Names and handlers stay together *)

Lemma map_store {A B : Type} (f : A -> B) (l : list A) (i : nat) (v : A) :
  map f (store l i v) = store (map f l) i (f v).
Proof.
  revert i. induction l as [|x l IH]; intros [|i]; simpl; try reflexivity.
  rewrite IH. reflexivity.
Qed.

Lemma Swap_handlers (b b' : byAlpha) (i j : nat) :
  Swap b i j = Some b' ->
  map handlerName (chs b) = ns b ->
  map handlerName (chs b') = ns b'.
Proof.
  unfold Swap, obind. intros H Hm.
  destruct (nth_error (ns b) j) as [nj|] eqn:Enj; [|discriminate].
  destruct (nth_error (ns b) i) as [ni|] eqn:Eni; [|discriminate].
  destruct (assign2 (ns b) i j nj ni) as [ns1|] eqn:Ens; [|discriminate].
  destruct (nth_error ns1 j) as [nj1|]; [|discriminate].
  destruct (nth_error (ds b) i) as [di|]; [|discriminate].
  destruct (assign2 (ds b) i j nj1 di) as [ds1|]; [|discriminate].
  destruct (nth_error (chs b) j) as [cj|] eqn:Ecj; [|discriminate].
  destruct (nth_error (chs b) i) as [ci|] eqn:Eci; [|discriminate].
  destruct (assign2 (chs b) i j cj ci) as [chs1|] eqn:Ech; [|discriminate].
  inversion H. subst b'. simpl.
  apply assign2_inv in Ens. destruct Ens as (-> & _ & _).
  apply assign2_inv in Ech. destruct Ech as (-> & _ & _).
  rewrite !map_store, Hm.
  assert (Hj : handlerName cj = nj).
  { apply (map_nth_error handlerName) in Ecj. rewrite Hm, Enj in Ecj.
    congruence. }
  assert (Hi : handlerName ci = ni).
  { apply (map_nth_error handlerName) in Eci. rewrite Hm, Eni in Eci.
    congruence. }
  rewrite Hi, Hj. reflexivity.
Qed.

Lemma run_sort_handlers (p : SortProc) :
  forall b b',
    run_sort p b = Some b' ->
    map handlerName (chs b) = ns b ->
    map handlerName (chs b') = ns b'.
Proof.
  induction p as [|i j k IH|i j k IH]; intros b b' H Hm; simpl in H.
  - inversion H. subst. exact Hm.
  - destruct (Less b i j) as [r|]; [|discriminate]. apply (IH r b); auto.
  - destruct (Swap b i j) as [b1|] eqn:E; [|discriminate].
    apply (IH b1); [exact H|]. apply (Swap_handlers b b1 i j E Hm).
Qed.

Lemma cs_get_In (cs : CommandSet) (k : string) (c : CommandHandler) :
  cs_get cs k = Some c -> In (k, c) cs.
Proof.
  induction cs as [|[k' c'] cs IH]; simpl; [discriminate|].
  destruct (k' =? k)%string eqn:E.
  - apply String.eqb_eq in E. intros H. inversion H. subst. auto.
  - auto.
Qed.

(** X7: whatever the sort does, the handler at each index of the result of
    [List] is the one named by the name at that index. *)
Lemma List_handlers_aligned (sort_Sort : nat -> SortProc) (cs : CommandSet)
  (names descs : list string) (hs : list CommandHandler) :
  cs_wf cs ->
  List sort_Sort cs = Done (names, descs, hs) ->
  map handlerName hs = names.
Proof.
  intros Hwf. unfold List. rewrite List_fold. cbn [app orb].
  set (b0 := mkByAlpha (map nameOf (plain cs)) (map descOf (plain cs))
                       (map snd (plain cs))).
  destruct (run_sort (sort_Sort (Len b0)) b0) as [b'|] eqn:Hrun;
    [|discriminate].
  assert (Hb : map handlerName (chs b') = ns b').
  { apply (run_sort_handlers _ b0 b' Hrun). unfold b0. simpl.
    rewrite map_map. reflexivity. }
  destruct (hasHelp cs).
  - destruct (cs_get cs "help") as [hh|] eqn:Eh; [|discriminate].
    intros H. inversion H. subst. simpl. rewrite Hb. f_equal.
    apply cs_get_In in Eh. destruct Hwf as [_ Hf].
    rewrite Forall_forall in Hf. symmetry. apply (Hf _ Eh).
  - intros H. inversion H. subst. exact Hb.
Qed.

(** ** Instances at concrete inputs *)

Lemma NextCommand_exact_match_wins_witness :
  exists st',
    NextCommand shellwords_Parse exampleUsage insertionSort
                (Some deleteCommands) context_Background
                (inboundState "delete")
    = (Done None, st')
    /\ sentTexts (st_world st') = ["delete"].
Proof.
  rewrite (NextCommand_exact_match_wins
             shellwords_Parse exampleUsage insertionSort
             deleteCommands context_Background (inboundState "delete")
             (set_args (inbound "delete") (Some ["delete"]))
             "delete" [] "delete" (echoCommand "delete" "remove")
             eq_refl eq_refl eq_refl).
  eexists. split; reflexivity.
Defined.

Lemma NextCommand_prefix_resolution_witness :
  NextCommand shellwords_Parse exampleUsage insertionSort
              (Some deleteCommands) context_Background (inboundState "del")
  = (Done (Some (errorString "ambigious command, del: delete, deleted")),
     set_m (inboundState "del") (set_args (inbound "del") (Some ["del"])))
  /\ NextCommand shellwords_Parse exampleUsage insertionSort
                 (Some deleteCommands) context_Background (inboundState "zzz")
     = (Done (Some ErrUnknownCommand),
        set_m (inboundState "zzz") (set_args (inbound "zzz") (Some ["zzz"])))
  /\ exists st',
      NextCommand shellwords_Parse exampleUsage insertionSort
                  (Some deleteCommands) context_Background
                  (inboundState "dep now")
      = (Done None, st')
      /\ sentTexts (st_world st') = ["deploy"].
Proof.
  split; [|split].
  - apply (proj2 (proj2 (NextCommand_prefix_resolution
             shellwords_Parse exampleUsage insertionSort
             deleteCommands context_Background (inboundState "del")
             (set_args (inbound "del") (Some ["del"])) "del" []
             eq_refl eq_refl eq_refl))).
    simpl. lia.
  - apply (proj1 (NextCommand_prefix_resolution
             shellwords_Parse exampleUsage insertionSort
             deleteCommands context_Background (inboundState "zzz")
             (set_args (inbound "zzz") (Some ["zzz"])) "zzz" []
             eq_refl eq_refl eq_refl)).
    reflexivity.
  - rewrite (proj1 (proj2 (NextCommand_prefix_resolution
             shellwords_Parse exampleUsage insertionSort
             deleteCommands context_Background (inboundState "dep now")
             (set_args (inbound "dep now") (Some ["dep"; "now"])) "dep" ["now"]
             eq_refl eq_refl eq_refl))
             "deploy" (echoCommand "deploy" "roll out") eq_refl).
    eexists. split; reflexivity.
Defined.

Lemma deleteCommands_wf : cs_wf deleteCommands.
Proof.
  unfold deleteCommands, deployCommands.
  repeat apply AddCommandHandler_wf. apply NewCommandSet_wf.
Qed.

Lemma List_help_first_then_sorted_witness :
  exists descs hs,
    List insertionSort deleteCommands
    = Done (["help"; "delete"; "deleted"; "deploy"], descs, hs).
Proof.
  destruct (List_help_first_then_sorted insertionSort deleteCommands
              deleteCommands_wf eq_refl)
    as (rest & descs & hs & HL & _).
  exists descs, hs. rewrite HL. vm_compute in HL.
  inversion HL. reflexivity.
Defined.

Lemma runCommandHandler_help_or_unchanged_witness :
  (exists st',
      runCommandHandler shellwords_Parse exampleUsage context_Background
                        (helpRequested "deploy" "roll out")
                        (inboundState "deploy -help")
      = (Some ErrSkipHears, st')
      /\ sentTexts (st_world st') = ["usage of deploy: roll out"])
  /\ (exists st',
         runCommandHandler shellwords_Parse exampleUsage context_Background
                           (mkCommandHandler
                              ("deploy", "roll out")
                              (fun _ => ret (Some ErrUnknownCommand)))
                           (inboundState "deploy now")
         = (Some ErrUnknownCommand, st')
         /\ sentTexts (st_world st') = []).
Proof.
  split.
  - rewrite (proj1 (runCommandHandler_help_or_unchanged
               shellwords_Parse exampleUsage context_Background
               (helpRequested "deploy" "roll out")
               (inboundState "deploy -help")
               (set_args (inbound "deploy -help") (Some ["deploy"; "-help"]))
               "deploy" ["-help"] eq_refl eq_refl)
               _ eq_refl).
    eexists. split; reflexivity.
  - rewrite (proj2 (runCommandHandler_help_or_unchanged
               shellwords_Parse exampleUsage context_Background
               (mkCommandHandler ("deploy", "roll out")
                                 (fun _ => ret (Some ErrUnknownCommand)))
               (inboundState "deploy now")
               (set_args (inbound "deploy now") (Some ["deploy"; "now"]))
               "deploy" ["now"] eq_refl eq_refl)
               (Some ErrUnknownCommand) _ eq_refl
               ltac:(discriminate)).
    eexists. split; reflexivity.
Defined.

(** A command with sub-commands: the default function parses the flags
    and defers to the sub-command named by the next argument. *)
Lemma subcommand_example :
  exists st',
    runCommandHandler shellwords_Parse exampleUsage context_Background
      (withSubs shellwords_Parse exampleUsage exampleParse insertionSort
                "app" "application" deployCommands)
      (inboundState "app delete x")
    = (None, st')
    /\ sentTexts (st_world st') = ["delete"]
    /\ args (st_m st') = Some ["delete"; "x"].
Proof.
  eexists. repeat split; reflexivity.
Qed.

(** ** Where the code departs from its description *)

Lemma Swap_two_inv (b b' : byAlpha) (i j : nat) :
  two_inv b -> Swap b i j = Some b' -> two_inv b'.
Proof.
  destruct b as [n d c]. unfold two_inv, tainted. simpl.
  intros ((c0 & c1 & ->) & (d0 & d1 & ->) & Hn) H.
  destruct Hn as [[-> Hd]|[-> Hd]];
    destruct i as [|[|[|i]]]; destruct j as [|[|[|j]]];
    try (cbv in H; discriminate);
    cbv in H; inversion H; subst; simpl;
    (split; [eauto|]); (split; [eauto|]); simpl in Hd; tauto.
Qed.

Lemma run_sort_two_inv (p : SortProc) :
  forall b b', two_inv b -> run_sort p b = Some b' -> two_inv b'.
Proof.
  induction p as [|i j k IH|i j k IH]; intros b b' Hb H; simpl in H.
  - inversion H. subst. exact Hb.
  - destruct (Less b i j) as [r|]; [|discriminate]. apply (IH r b); auto.
  - destruct (Swap b i j) as [b1|] eqn:E; [|discriminate].
    apply (IH b1); [|exact H]. apply (Swap_two_inv b b1 i j Hb E).
Qed.

(** Whatever [sort.Sort] does: when [List] returns the two names in
    order, the descriptions it returns are not those of the two
    commands. *)
Lemma twoCommands_any_sort (sort_Sort : nat -> SortProc)
  (names descs : list string) (hs : list CommandHandler) :
  List sort_Sort twoCommands = Done (names, descs, hs) ->
  names = ["a"; "b"] ->
  descs <> ["first"; "second"].
Proof.
  unfold List. cbn [twoCommands AddCommandHandler NewCommandSet].
  set (b0 := mkByAlpha ["b"; "a"] ["second"; "first"]
                       [echoCommand "b" "second"; echoCommand "a" "first"]).
  intros H Hn.
  assert (Hb0 : two_inv b0).
  { unfold two_inv, b0. simpl. repeat split; eauto. }
  change (match run_sort (sort_Sort (Len b0)) b0 with
          | Some sorted => Done (ns sorted, ds sorted, chs sorted)
          | None => Panicked indexOutOfRange
          end = Done (names, descs, hs)) in H.
  destruct (run_sort (sort_Sort (Len b0)) b0) as [b'|] eqn:E;
    [|discriminate].
  injection H as Hns Hds Hchs.
  destruct (run_sort_two_inv _ b0 b' Hb0 E) as (_ & _ & Hd).
  destruct Hd as [[Hba _]|[_ Ht]].
  - rewrite Hns, Hn in Hba. discriminate.
  - intros Heq. unfold tainted in Ht. rewrite Hds, Heq in Ht. simpl in Ht.
    destruct Ht as [[|[|]]|[|[|]]]; try discriminate; contradiction.
Qed.

(** C10 at the command set in which b was registered before a and is
    visited first: the names come out as a, b and the handlers with them,
    but the description at index 1 is the string a, not the description of
    the handler named b.  [Swap] stores [b.ns[j]] into [b.ds[i]]. *)
Theorem List_descriptions_misaligned :
  cs_wf twoCommands
  /\ exists hs,
      List insertionSort twoCommands = Done (["a"; "b"], ["first"; "a"], hs)
      /\ map Describe hs = [("a", "first"); ("b", "second")].
Proof.
  split.
  - unfold twoCommands. repeat apply AddCommandHandler_wf.
    apply NewCommandSet_wf.
  - eexists. split; reflexivity.
Qed.

(** C9 at a handler whose [Heard] panics on the text ping: the goroutine
    started by [go h.Heard(...)] has no deferred recover, the panic ends
    the process, and the message that follows is never handled; without
    the match both messages are answered. *)
Theorem Heard_panic_ends_process :
  forall (Parse : string -> option (list string))
         (cmdUsage : CommandHandler -> string -> string),
    Loop_messages Parse cmdUsage context_Background earBot 0 "shell"
                  [inbound "ping"; inbound "hello"] emptyWorld
    = Crashed (PanicRuntime "heard boom")
    /\ exists wd,
        Loop_messages Parse cmdUsage context_Background earBot 0 "shell"
                      [inbound "pingpong"; inbound "hello"] emptyWorld
        = Alive wd
        /\ sentTexts wd = ["seen"; "seen"].
Proof.
  intros Parse cmdUsage. split; [reflexivity|].
  eexists. split; reflexivity.
Qed.

(** The panics of the raw and command capabilities are recovered: both
    messages are taken, and the four panics are logged. *)
Lemma raw_and_command_panics_recovered :
  exists wd,
    Loop_messages shellwords_Parse exampleUsage context_Background boomBot
                  0 "shell" [inbound "ping"; inbound "hello"] emptyWorld
    = Alive wd
    /\ glog_Error wd =
       [PanicRuntime "raw boom"; PanicRuntime "command boom";
        PanicRuntime "raw boom"; PanicRuntime "command boom"].
Proof.
  eexists. split; reflexivity.
Qed.

(** * Further properties of the handler layer *)

(** ** Response writers: sequences of writes, copies, setters *)

(** [w.Write(bs)] for each slice of a list, one after the other. *)
Fixpoint Write_all (w : responseWriter) (bss : list (list byte)) (wd : World)
  : responseWriter * World :=
  match bss with
  | [] => (w, wd)
  | bs :: rest =>
      match Write w bs wd with
      | (_, w', wd') => Write_all w' rest wd'
      end
  end.

(** X1: a sequence of writes through a writer bound to an adapter hands
    that adapter one message per write, in the order of the writes, each
    the template with the text written; the counter of sent messages is
    incremented once per write with the label of the writer and the
    channel and sender of the template; the writer is left as it was. *)
Theorem Write_all_adapter :
  forall (a : Adapter) (m : Message) (n : string) (bss : list (list byte))
         (wd : World),
    let w := mkResponseWriter (adapterSender a) m n in
    fst (Write_all w bss wd) = w
    /\ outbox (snd (Write_all w bss wd))
       = outbox wd ++
         map (fun bs => (a, context_TODO, set_Text m (string_of_list_byte bs)))
             bss
    /\ messagesTx (snd (Write_all w bss wd))
       = messagesTx wd ++ map (fun _ => (n, Channel m, From m)) bss.
Proof.
  intros a m n bss wd w. revert wd.
  induction bss as [|bs rest IH]; intros wd.
  - simpl. rewrite !app_nil_r. auto.
  - cbn [Write_all Write]. destruct (IH (Send w context_TODO
                 (set_Text (msg w) (string_of_list_byte bs)) wd))
      as (Hw & Ho & Ht).
    split; [exact Hw|]. split.
    + rewrite Ho. simpl. rewrite <- app_assoc. reflexivity.
    + rewrite Ht. simpl. rewrite <- app_assoc. reflexivity.
Qed.

(** X2: nothing written through the writer of [NewNullResponseWriter]
    reaches an adapter, however many writes are made; each write is still
    counted as a sent message under the label null. *)
Theorem NullResponseWriter_discards :
  forall (m : Message) (bss : list (list byte)) (wd : World),
    outbox (snd (Write_all (NewNullResponseWriter m) bss wd)) = outbox wd
    /\ messagesTx (snd (Write_all (NewNullResponseWriter m) bss wd))
       = messagesTx wd ++ map (fun _ => ("null", Channel m, From m)) bss
    /\ glog_Error (snd (Write_all (NewNullResponseWriter m) bss wd))
       = glog_Error wd.
Proof.
  intros m bss. induction bss as [|bs rest IH]; intros wd.
  - simpl. rewrite app_nil_r. auto.
  - cbn [Write_all Write NewNullResponseWriter newResponseWriter].
    destruct (IH (Send (NewNullResponseWriter m) context_TODO
                       (set_Text m (string_of_list_byte bs)) wd))
      as (Ho & Ht & Hg).
    unfold NewNullResponseWriter, newResponseWriter in *. simpl in *.
    split; [exact Ho|]. split; [|exact Hg].
    rewrite Ht. simpl. rewrite <- app_assoc. reflexivity.
Qed.

(** X3: [Copy] keeps the sender and the label of a writer and forgets its
    template: whatever channel and recipient were set on the original, a
    write through the copy sends a message that has only its text, and is
    counted under an empty channel and sender; the original still sends
    with its own template. *)
Theorem Copy_forgets_template :
  forall (w : responseWriter) (c t : string) (bs : list byte) (wd : World),
    let orig := SetTo (SetChannel w c) t in
    Write (Copy orig) bs wd
    = ((Z.of_nat (List.length bs), None), Copy orig,
       Sender_Send (w_snd w) context_TODO
                   (set_Text emptyMessage (string_of_list_byte bs))
                   (incTx (an w, EmptyString, EmptyString) wd))
    /\ Channel (msg (Copy orig)) = EmptyString
    /\ To (msg (Copy orig)) = EmptyString
    /\ Write orig bs wd
       = ((Z.of_nat (List.length bs), None), orig,
          Sender_Send (w_snd w) context_TODO
            (mkMessage c (From (msg w)) t (UserID (msg w)) (Private (msg w))
                       (ToBot (msg w)) (string_of_list_byte bs)
                       (args (msg w)) (flagOut (msg w)) (Flags (msg w)))
            (incTx (an w, c, From (msg w)) wd)).
Proof.
  intros w c t bs wd orig. repeat split.
Qed.

(** X4: [SetChannel] and [SetTo] may be called in either order, and
    [SetSender] before or after them: the next write goes to the sender set
    last, with the channel and the recipient set last, and a later
    [SetChannel] overrides an earlier one. *)
Theorem setters_compose :
  forall (w : responseWriter) (c c' t : string) (s : Sender)
         (bs : list byte) (wd : World),
    SetTo (SetChannel w c) t = SetChannel (SetTo w t) c
    /\ SetSender (SetChannel w c) s = SetChannel (SetSender w s) c
    /\ SetChannel (SetChannel w c) c' = SetChannel w c'
    /\ snd (Write (SetSender (SetTo (SetChannel w c) t) s) bs wd)
       = Sender_Send s context_TODO
           (mkMessage c (From (msg w)) t (UserID (msg w)) (Private (msg w))
                      (ToBot (msg w)) (string_of_list_byte bs)
                      (args (msg w)) (flagOut (msg w)) (Flags (msg w)))
           (incTx (an w, c, From (msg w)) wd).
Proof.
  intros w c c' t s bs wd. repeat split.
Qed.

(** ** Command sets: registration and lookup *)

(** [AddCommandHandler] for each handler of a list, starting from
    [NewCommandSet]. *)
Definition register (hs : list CommandHandler) : CommandSet :=
  fold_left AddCommandHandler hs NewCommandSet.

Lemma cs_get_put (cs : CommandSet) (k k' : string) (c : CommandHandler) :
  cs_get (cs_put cs k c) k'
  = if (k' =? k)%string then Some c else cs_get cs k'.
Proof.
  induction cs as [|[k0 c0] cs IH]; simpl.
  - rewrite (String.eqb_sym k k'). reflexivity.
  - destruct (k0 =? k)%string eqn:E0; simpl.
    + apply String.eqb_eq in E0. subst k0.
      rewrite (String.eqb_sym k k'). destruct (k' =? k)%string; reflexivity.
    + destruct (k0 =? k')%string eqn:E1; [|exact IH].
      apply String.eqb_eq in E1. subst k0.
      rewrite E0. reflexivity.
Qed.

(** X5: after [AddCommandHandler(c)] the map holds [c] under the name of
    [c], whether or not that name was registered before, and every other
    key holds what it held. *)
Theorem AddCommandHandler_lookup :
  forall (cs : CommandSet) (c : CommandHandler) (k : string),
    cs_get (AddCommandHandler cs c) k
    = if (k =? fst (Describe c))%string then Some c else cs_get cs k.
Proof.
  intros cs c k. unfold AddCommandHandler. apply cs_get_put.
Qed.

Lemma cs_put_has_key (cs : CommandSet) (k : string) (c : CommandHandler) :
  forall x, x = k \/ In x (map fst cs) -> In x (map fst (cs_put cs k c)).
Proof.
  induction cs as [|[k' c'] cs IH]; simpl; intros x Hx.
  - destruct Hx as [->|[]]. auto.
  - destruct (k' =? k)%string eqn:E; simpl.
    + apply String.eqb_eq in E. subst k'. destruct Hx as [->|[->|Hx]]; auto.
    + destruct Hx as [->|[->|Hx]]; auto.
Qed.

Lemma fold_AddCommandHandler_wf (hs : list CommandHandler) :
  forall cs, cs_wf cs -> cs_wf (fold_left AddCommandHandler hs cs).
Proof.
  induction hs as [|h hs IH]; intros cs Hcs; simpl; [exact Hcs|].
  apply IH. apply AddCommandHandler_wf. exact Hcs.
Qed.

Lemma fold_AddCommandHandler_keys (hs : list CommandHandler) :
  forall cs k,
    In k (map fst (fold_left AddCommandHandler hs cs))
    <-> In k (map fst cs) \/ In k (map handlerName hs).
Proof.
  induction hs as [|h hs IH]; intros cs k; simpl.
  - tauto.
  - rewrite IH. unfold AddCommandHandler, handlerName. split.
    + intros [H|H]; [|tauto]. apply cs_put_keys in H. destruct H; auto.
    + intros [H|[H|H]]; [left|left|right]; auto.
      * apply cs_put_has_key. auto.
      * apply cs_put_has_key. auto.
Qed.

(** X6: whatever handlers are registered and in whatever order, also with
    names registered twice, the command set has pairwise distinct keys,
    each entry stands under the name of its handler, the keys are exactly
    the names of the handlers registered, and a name holds the handler
    registered last under it. *)
Theorem register_well_formed :
  forall (hs : list CommandHandler) (c : CommandHandler) (k : string),
    cs_wf (register hs)
    /\ (In k (map fst (register hs)) <-> In k (map handlerName hs))
    /\ cs_get (register (hs ++ [c])) (handlerName c) = Some c.
Proof.
  intros hs c k. unfold register. split; [|split].
  - apply fold_AddCommandHandler_wf. apply NewCommandSet_wf.
  - rewrite fold_AddCommandHandler_keys. simpl. tauto.
  - rewrite fold_left_app. cbn [fold_left]. unfold AddCommandHandler at 1.
    rewrite cs_get_put. unfold handlerName. rewrite String.eqb_refl.
    reflexivity.
Qed.

(** ** [List]: alignment, lengths, independence of the iteration order *)

Lemma List_handlers_aligned_witness :
  map handlerName
      [echoCommand "help" "show help"; echoCommand "delete" "remove";
       echoCommand "deleted" "list removals"; echoCommand "deploy" "roll out"]
  = ["help"; "delete"; "deleted"; "deploy"].
Proof.
  apply (List_handlers_aligned insertionSort deleteCommands
           ["help"; "delete"; "deleted"; "deploy"]
           ["show help"; "remove"; "list removals"; "deleted"]
           [echoCommand "help" "show help"; echoCommand "delete" "remove";
            echoCommand "deleted" "list removals";
            echoCommand "deploy" "roll out"]
           deleteCommands_wf eq_refl).
Defined.

Lemma run_sort_lengths (p : SortProc) (b b' : byAlpha) :
  aligned_lengths b ->
  run_sort p b = Some b' ->
  aligned_lengths b' /\ List.length (ns b') = List.length (ns b).
Proof.
  intros Hb Hrun. assert (Hn := run_sort_names p b Hb).
  destruct (run_sort_strings p (ns b)) as [l'|] eqn:E.
  - destruct Hn as (b1 & Hb1 & Hns & Hal). rewrite Hrun in Hb1.
    inversion Hb1. subst b1. split; [exact Hal|].
    rewrite Hns. symmetry. apply Permutation_length.
    apply (run_sort_strings_Permutation p). exact E.
  - rewrite Hrun in Hn. discriminate.
Qed.

Lemma plain_all (cs : CommandSet) : hasHelp cs = false -> plain cs = cs.
Proof.
  unfold hasHelp, plain. induction cs as [|e cs IH]; simpl; [reflexivity|].
  intros H. apply orb_false_iff in H. destruct H as [He H].
  rewrite He. simpl. rewrite (IH H). reflexivity.
Qed.

Lemma hasHelp_In (cs : CommandSet) :
  hasHelp cs = true -> In "help" (map nameOf cs).
Proof.
  unfold hasHelp. intros H. apply existsb_exists in H.
  destruct H as (e & He & Hn). apply String.eqb_eq in Hn.
  apply in_map_iff. exists e. auto.
Qed.

Lemma plain_count (cs : CommandSet) :
  NoDup (map nameOf cs) ->
  List.length (plain cs) + (if hasHelp cs then 1 else 0) = List.length cs.
Proof.
  induction cs as [|e cs IH]; intros Hn; [reflexivity|].
  inversion Hn as [|x l Hx Hn']. subst.
  unfold plain, hasHelp in *. cbn [filter existsb map List.length].
  destruct (nameOf e =? "help")%string eqn:E; cbn [negb orb].
  - apply String.eqb_eq in E.
    destruct (existsb (fun e0 => (nameOf e0 =? "help")%string) cs) eqn:Ex.
    + exfalso. apply Hx. rewrite E. apply hasHelp_In. exact Ex.
    + fold (plain cs). rewrite (plain_all cs Ex). lia.
  - specialize (IH Hn'). cbn [List.length]. lia.
Qed.

(** X8: the three slices that [List] returns have one length, whatever the
    sort does; for a command set as [AddCommandHandler] builds it, that
    length is the number of entries. *)
Theorem List_lengths :
  forall (sort_Sort : nat -> SortProc) (cs : CommandSet)
         (names descs : list string) (hs : list CommandHandler),
    List sort_Sort cs = Done (names, descs, hs) ->
    List.length descs = List.length names
    /\ List.length hs = List.length names
    /\ (NoDup (map nameOf cs) -> List.length names = List.length cs).
Proof.
  intros sort_Sort cs names descs hs. unfold List. rewrite List_fold.
  cbn [app orb].
  set (b0 := mkByAlpha (map nameOf (plain cs)) (map descOf (plain cs))
                       (map snd (plain cs))).
  assert (Hb0 : aligned_lengths b0).
  { unfold aligned_lengths, b0. simpl. rewrite !length_map. auto. }
  destruct (run_sort (sort_Sort (Len b0)) b0) as [b'|] eqn:Hrun;
    [|discriminate].
  destruct (run_sort_lengths _ b0 b' Hb0 Hrun) as ([Hd Hc] & Hlen).
  assert (Hl0 : List.length (ns b0) = List.length (plain cs))
    by (unfold b0; simpl; apply length_map).
  destruct (hasHelp cs) eqn:Eh.
  - destruct (cs_get cs "help") as [hh|]; [|discriminate].
    intros H. injection H as <- <- <-. simpl.
    repeat split; try congruence.
    intros Hn. apply plain_count in Hn. rewrite Eh in Hn. lia.
  - intros H. injection H as <- <- <-.
    repeat split; try congruence.
    intros Hn. apply plain_count in Hn. rewrite Eh in Hn. lia.
Qed.

Lemma List_lengths_witness :
  List.length ["show help"; "remove"; "list removals"; "deleted"] = 4
  /\ List.length deleteCommands = 4.
Proof.
  destruct (List_lengths insertionSort deleteCommands
              ["help"; "delete"; "deleted"; "deploy"]
              ["show help"; "remove"; "list removals"; "deleted"]
              [echoCommand "help" "show help"; echoCommand "delete" "remove";
               echoCommand "deleted" "list removals";
               echoCommand "deploy" "roll out"] eq_refl)
    as (Hd & _ & Hn).
  split; [exact Hd|]. symmetry. apply Hn.
  repeat constructor; simpl; intuition discriminate.
Defined.

(** Two strictly ascending slices with the same elements are equal. *)
Lemma sorted_unique (l l' : list string) :
  StronglySorted slt l -> StronglySorted slt l' -> Permutation l l' ->
  l = l'.
Proof.
  revert l'. induction l as [|x l IH]; intros l' Hl Hl' Hp.
  - apply Permutation_nil in Hp. auto.
  - destruct l' as [|y l'].
    + apply Permutation_sym, Permutation_nil in Hp. discriminate.
    + apply StronglySorted_inv in Hl. destruct Hl as [Hl Hx].
      apply StronglySorted_inv in Hl'. destruct Hl' as [Hl' Hy].
      rewrite Forall_forall in Hx, Hy.
      assert (Exy : x = y).
      { assert (Hx' : In x (y :: l'))
          by (apply (Permutation_in x Hp); left; reflexivity).
        assert (Hy' : In y (x :: l))
          by (apply (Permutation_in y (Permutation_sym Hp)); left;
              reflexivity).
        destruct Hx' as [E|Hx']; [auto|].
        destruct Hy' as [E|Hy']; [auto|].
        exfalso. apply (slt_irrefl x).
        apply slt_trans with y; [apply Hx|apply Hy]; assumption. }
      subst y. f_equal. apply IH; try assumption.
      apply Permutation_cons_inv with x. exact Hp.
Qed.

Lemma wf_Permutation (cs cs' : CommandSet) :
  cs_wf cs -> Permutation cs cs' -> cs_wf cs'.
Proof.
  intros [Hn Hf] Hp. split.
  - apply (Permutation_NoDup (Permutation_map fst Hp)). exact Hn.
  - rewrite Forall_forall in *. intros e He. apply Hf.
    apply (Permutation_in e (Permutation_sym Hp)). exact He.
Qed.

Lemma existsb_Permutation {A : Type} (f : A -> bool) (l l' : list A) :
  Permutation l l' -> existsb f l = existsb f l'.
Proof.
  intros Hp. induction Hp; simpl.
  - reflexivity.
  - rewrite IHHp. reflexivity.
  - destruct (f x), (f y); reflexivity.
  - congruence.
Qed.

Lemma filter_Permutation {A : Type} (f : A -> bool) (l l' : list A) :
  Permutation l l' -> Permutation (filter f l) (filter f l').
Proof.
  intros Hp. induction Hp; simpl.
  - constructor.
  - destruct (f x); [apply perm_skip|]; exact IHHp.
  - destruct (f x), (f y); try apply Permutation_refl. apply perm_swap.
  - eapply perm_trans; eassumption.
Qed.

(** X9: the names that [List] returns do not depend on the order in which
    [range] visits the map: two visits of one well-formed command set, each
    followed by a sort that does its work, give the same slice of names. *)
Theorem List_names_order_independent :
  forall (sort_Sort : nat -> SortProc) (cs cs' : CommandSet),
    cs_wf cs ->
    Permutation cs cs' ->
    sorts (sort_Sort (List.length (plainNames cs))) (plainNames cs) = true ->
    sorts (sort_Sort (List.length (plainNames cs'))) (plainNames cs') = true ->
    exists names descs hs descs' hs',
      List sort_Sort cs = Done (names, descs, hs)
      /\ List sort_Sort cs' = Done (names, descs', hs').
Proof.
  intros sort_Sort cs cs' Hwf Hp Hs Hs'.
  assert (Hwf' := wf_Permutation cs cs' Hwf Hp).
  unfold sorts in Hs, Hs'.
  destruct (run_sort_strings _ (plainNames cs)) as [l|] eqn:Hrun;
    [|discriminate].
  destruct (run_sort_strings _ (plainNames cs')) as [l'|] eqn:Hrun';
    [|discriminate].
  destruct (List_result sort_Sort cs l Hwf Hrun) as (descs & hs & HL).
  destruct (List_result sort_Sort cs' l' Hwf' Hrun') as (descs' & hs' & HL').
  assert (Hpl : Permutation (plainNames cs) l)
    by (eapply run_sort_strings_Permutation; exact Hrun).
  assert (Hpl' : Permutation (plainNames cs') l')
    by (eapply run_sort_strings_Permutation; exact Hrun').
  assert (Hpn : Permutation (plainNames cs) (plainNames cs')).
  { unfold plainNames. apply filter_Permutation.
    apply Permutation_map. exact Hp. }
  assert (El : l = l').
  { apply sorted_unique.
    - apply ascending_NoDup_sorted; [exact Hs|].
      apply (Permutation_NoDup Hpl). apply plainNames_NoDup. exact Hwf.
    - apply ascending_NoDup_sorted; [exact Hs'|].
      apply (Permutation_NoDup Hpl'). apply plainNames_NoDup. exact Hwf'.
    - apply perm_trans with (plainNames cs);
        [apply Permutation_sym; exact Hpl|].
      apply perm_trans with (plainNames cs'); assumption. }
  subst l'.
  rewrite <- (existsb_Permutation (String.eqb "help") _ _
                (Permutation_map fst Hp)) in HL'.
  eauto 10.
Qed.

Lemma List_names_order_independent_witness :
  exists names descs hs descs' hs',
    List insertionSort deleteCommands = Done (names, descs, hs)
    /\ List insertionSort (rev deleteCommands) = Done (names, descs', hs').
Proof.
  apply (List_names_order_independent insertionSort deleteCommands
           (rev deleteCommands) deleteCommands_wf
           (Permutation_rev deleteCommands) eq_refl eq_refl).
Defined.

(** ** Command resolution: lookup, edge cases, iteration order *)

Section Resolution.

Variable Parse : string -> option (list string).
Variable cmdUsage : CommandHandler -> string -> string.
Variable sort_Sort : nat -> SortProc.

(** [runCommandHandler] as [NextCommand] returns it. *)
Definition dispatch (ctx : Context) (h : CommandHandler) (st : State)
  : outcome (option error) * State :=
  let (err, st') := runCommandHandler Parse cmdUsage ctx h st in
  (Done err, st').

Lemma cs_get_absent (cs : CommandSet) (k : string) :
  ~ In k (map fst cs) -> cs_get cs k = None.
Proof.
  induction cs as [|[k' c'] cs IH]; simpl; intros H; [reflexivity|].
  destruct (k' =? k)%string eqn:E.
  - apply String.eqb_eq in E. exfalso. auto.
  - apply IH. auto.
Qed.

Lemma exactMatches_lookup (cs : CommandSet) (k : string) :
  NoDup (map fst cs) ->
  exactMatches k cs
  = match cs_get cs k with
    | Some h => [(k, h)]
    | None => []
    end.
Proof.
  unfold exactMatches. induction cs as [|[k' c'] cs IH]; simpl; intros Hn;
    [reflexivity|].
  inversion Hn as [|x l Hx Hn']. subst.
  destruct (k' =? k)%string eqn:E.
  - apply String.eqb_eq in E. subst k'.
    rewrite (IH Hn'), (cs_get_absent cs k Hx). reflexivity.
  - apply IH. exact Hn'.
Qed.

(** X10: on a map, whose keys are distinct, [NextCommand] with first
    argument [arg0] runs the handler stored under [arg0] when there is
    one, as a lookup would; otherwise it resolves [arg0] as a prefix.  It
    never builds the error of multiple exact matches. *)
Theorem NextCommand_lookup :
  forall (cs : CommandSet) (ctx : Context) (st : State) (m : Message)
         (arg0 : string) (rest : list string),
    NoDup (map fst cs) ->
    parseArgs Parse (st_m st) = Some m ->
    args m = Some (arg0 :: rest) ->
    NextCommand Parse cmdUsage sort_Sort (Some cs) ctx st
    = match cs_get cs arg0 with
      | Some h => dispatch ctx h (set_m st m)
      | None =>
          match prefixMatches arg0 cs with
          | [] => (Done (Some ErrUnknownCommand), set_m st m)
          | [(_, h)] => dispatch ctx h (set_m st m)
          | ms => (Done (Some (errAmbiguous arg0 (map fst ms))), set_m st m)
          end
      end.
Proof.
  intros cs ctx st m arg0 rest Hn Hp Ha.
  rewrite (NextCommand_resolve Parse cmdUsage sort_Sort cs ctx st m arg0 rest
             Hp Ha).
  rewrite (exactMatches_lookup cs arg0 Hn). unfold dispatch.
  destruct (cs_get cs arg0) as [h|]; simpl.
  - destruct (map snd (prefixMatches arg0 cs)) as [|c [|c' l]]; reflexivity.
  - destruct (prefixMatches arg0 cs) as [|[k1 h1] [|[k2 h2] l]]; reflexivity.
Qed.

(** X11: with an empty argument vector [NextCommand] runs no handler and
    returns the error of the missing sub-command, whose text lists the
    names that [List] returns, separated by commas. *)
Theorem NextCommand_missing_subcommand :
  forall (cs : CommandSet) (ctx : Context) (st : State) (m : Message)
         (names descs : list string) (hs : list CommandHandler),
    parseArgs Parse (st_m st) = Some m ->
    args m = Some [] ->
    List sort_Sort cs = Done (names, descs, hs) ->
    NextCommand Parse cmdUsage sort_Sort (Some cs) ctx st
    = (Done (Some (errorString
               ("required sub-command missing: "
                ++ String.concat ", " names)%string)),
       set_m st m).
Proof.
  intros cs ctx st m names descs hs Hp Ha HL.
  unfold NextCommand. rewrite Hp, Ha, HL. reflexivity.
Qed.

Lemma exactMatches_short (cs : CommandSet) (k : string) :
  NoDup (map fst cs) -> List.length (exactMatches k cs) <= 1.
Proof.
  intros Hn. rewrite (exactMatches_lookup cs k Hn).
  destruct (cs_get cs k); simpl; lia.
Qed.

Lemma Permutation_short {A : Type} (l l' : list A) :
  Permutation l l' -> List.length l <= 1 -> l = l'.
Proof.
  intros Hp Hl. destruct l as [|x [|y l]]; simpl in Hl; try lia.
  - apply Permutation_nil in Hp. auto.
  - apply Permutation_length_1_inv in Hp. auto.
Qed.

(** X12: the command that [NextCommand] runs does not depend on the order
    in which [range] visits the map.  Two visits of one map give the same
    result and state, except when [arg0] is an ambiguous prefix: then both
    return the error of an ambiguous command and only the order of the
    names in its text may differ. *)
Theorem NextCommand_order_independent :
  forall (cs cs' : CommandSet) (ctx : Context) (st : State) (m : Message)
         (arg0 : string) (rest : list string),
    NoDup (map fst cs) ->
    Permutation cs cs' ->
    parseArgs Parse (st_m st) = Some m ->
    args m = Some (arg0 :: rest) ->
    NextCommand Parse cmdUsage sort_Sort (Some cs) ctx st
    = NextCommand Parse cmdUsage sort_Sort (Some cs') ctx st
    \/ exists names names',
        Permutation names names'
        /\ 2 <= List.length names
        /\ NextCommand Parse cmdUsage sort_Sort (Some cs) ctx st
           = (Done (Some (errAmbiguous arg0 names)), set_m st m)
        /\ NextCommand Parse cmdUsage sort_Sort (Some cs') ctx st
           = (Done (Some (errAmbiguous arg0 names')), set_m st m).
Proof.
  intros cs cs' ctx st m arg0 rest Hn Hp Hpa Ha.
  assert (He : exactMatches arg0 cs = exactMatches arg0 cs').
  { apply Permutation_short.
    - apply filter_Permutation. exact Hp.
    - apply exactMatches_short. exact Hn. }
  assert (Hpp : Permutation (prefixMatches arg0 cs) (prefixMatches arg0 cs'))
    by (apply filter_Permutation; exact Hp).
  rewrite (NextCommand_resolve Parse cmdUsage sort_Sort cs ctx st m arg0 rest
             Hpa Ha).
  rewrite (NextCommand_resolve Parse cmdUsage sort_Sort cs' ctx st m arg0 rest
             Hpa Ha).
  rewrite <- He.
  assert (Hshort := exactMatches_short cs arg0 Hn).
  destruct (exactMatches arg0 cs) as [|[k h] [|e2 l]]; simpl in Hshort;
    try lia; simpl.
  - destruct (prefixMatches arg0 cs) as [|p1 [|p2 ps]] eqn:E.
    + apply Permutation_nil in Hpp. rewrite Hpp. left. reflexivity.
    + apply Permutation_length_1_inv in Hpp. rewrite Hpp. left. reflexivity.
    + right. exists (map fst (p1 :: p2 :: ps)), (map fst (prefixMatches arg0 cs')).
      split; [apply Permutation_map; exact Hpp|].
      split; [simpl; lia|]. split; [reflexivity|].
      assert (Hl := Permutation_length Hpp). simpl in Hl.
      destruct (prefixMatches arg0 cs') as [|q1 [|q2 qs]]; simpl in Hl;
        try lia. reflexivity.
  - left.
    destruct (map snd (prefixMatches arg0 cs)) as [|c [|c' l]];
      destruct (map snd (prefixMatches arg0 cs')) as [|d [|d' l']];
      reflexivity.
Qed.

(** X13: once the arguments are parsed and not empty, [NextCommand] on a
    command set returns, whatever the handlers do: a panic of the handler
    it runs does not come out of it.  On a nil command set it panics with
    the nil dereference. *)
Theorem NextCommand_returns :
  forall (cs : CommandSet) (ctx : Context) (st : State) (m : Message)
         (arg0 : string) (rest : list string),
    parseArgs Parse (st_m st) = Some m ->
    args m = Some (arg0 :: rest) ->
    (exists err st',
        NextCommand Parse cmdUsage sort_Sort (Some cs) ctx st = (Done err, st'))
    /\ NextCommand Parse cmdUsage sort_Sort None ctx st
       = (Panicked nilDeref, set_m st m).
Proof.
  intros cs ctx st m arg0 rest Hp Ha. split.
  - rewrite (NextCommand_resolve Parse cmdUsage sort_Sort cs ctx st m arg0
               rest Hp Ha).
    destruct (map snd (prefixMatches arg0 cs)) as [|c [|c' l]];
      destruct (map snd (exactMatches arg0 cs)) as [|d [|d' l']];
      try (destruct (runCommandHandler Parse cmdUsage ctx _ (set_m st m)));
      eauto.
  - unfold NextCommand. rewrite Hp, Ha. reflexivity.
Qed.

(** *** The invocation wrapper at its edges *)

(** X14: with an empty argument vector, for instance for a text that is
    empty or made of white space, [runCommandHandler] does not run the
    handler and gives it no flag set: it returns the error of a command
    called without arguments. *)
Theorem runCommandHandler_no_arguments :
  forall (ctx : Context) (h : CommandHandler) (st : State) (m : Message),
    parseArgs Parse (st_m st) = Some m ->
    args m = Some [] ->
    runCommandHandler Parse cmdUsage ctx h st
    = (Some (errorString "command handler called with no possible arguments"),
       set_m st m).
Proof.
  intros ctx h st m Hp Ha. unfold runCommandHandler. rewrite Hp, Ha.
  reflexivity.
Qed.

(** X15: when the handler panics, [runCommandHandler] returns the nil
    error with the state the handler left; the value of the panic is
    logged, unless it is [flag.ErrHelp]: a handler that panics with
    [flag.ErrHelp] leaves no trace, and no usage message is written. *)
Theorem runCommandHandler_panic :
  forall (ctx : Context) (h : CommandHandler) (st st2 : State) (m : Message)
         (name : string) (rest : list string) (v : PanicValue),
    parseArgs Parse (st_m st) = Some m ->
    args m = Some (name :: rest) ->
    Command h ctx (set_m st (withFlagSet m name)) = (Panicked v, st2) ->
    runCommandHandler Parse cmdUsage ctx h st
    = (None,
       match v with
       | PanicError flag_ErrHelp => st2
       | _ => set_world st2 (logPanic v (st_world st2))
       end).
Proof.
  intros ctx h st st2 m name rest v Hp Ha Hc.
  rewrite (runCommandHandler_unfold Parse cmdUsage ctx h st m name rest Hp Ha),
    Hc.
  destruct v as [[]|]; reflexivity.
Qed.

(** X16: a command made by [NewCommandHandler] with a nil command set that
    defers to its sub-commands: the nil dereference in [NextCommand] is
    recovered by the wrapper, which returns the nil error; nothing is sent,
    the panic is logged. *)
Theorem nil_subs_swallowed :
  forall (Message_Parse : M (option error)) (name desc : string)
         (f : CommandFunc) (ctx ctx' : Context) (st st2 : State)
         (m m2 : Message) (arg0 : string) (rest : list string),
    parseArgs Parse (st_m st) = Some m ->
    args m = Some (arg0 :: rest) ->
    f ctx (set_m st (withFlagSet m arg0))
    = (Done (Some (errNextCommand ctx')), st2) ->
    parseArgs Parse (st_m st2) = Some m2 ->
    runCommandHandler Parse cmdUsage ctx
      (bch_CommandHandler Parse cmdUsage sort_Sort
         (NewCommandHandler Message_Parse name desc (Some f) None))
      st
    = (None,
       set_world (set_m st2 m2) (logPanic nilDeref (st_world st2))).
Proof.
  intros Message_Parse name desc f ctx ctx' st st2 m m2 arg0 rest
         Hp Ha Hf Hp2.
  rewrite (runCommandHandler_unfold Parse cmdUsage ctx _ st m arg0 rest Hp Ha).
  simpl. unfold bch_Command, bind. simpl. rewrite Hf.
  unfold NextCommand. rewrite Hp2.
  destruct (args m2) as [[|a r]|]; reflexivity.
Qed.

End Resolution.

(** ** The loop and the panics of handlers *)



(** A bot that only hears, and whose [Heard] panics. *)
Definition earOnly : Handler :=
  mkHandler ("ear", "hears only") None (Some hearsBoom) None None.

Section LoopAlive.

Variable Parse : string -> option (list string).
Variable cmdUsage : CommandHandler -> string -> string.



(** X18: a message whose text the pattern does not match starts no
    [Heard] and is no error: for a handler with the hears capability only,
    the message changes nothing but the counter of received messages. *)
Theorem Loop_message_no_match :
  forall (ctx : Context) (h : Handler) (hh : HearsHandler) (re : Regexp)
         (an_ : string) (w : responseWriter) (m : Message) (wd : World),
    asRawHandler h = None ->
    asCommandHandler h = None ->
    asHearsHandler h = Some hh ->
    Hears hh = Some re ->
    re (Text m) = None ->
    Loop_message Parse cmdUsage ctx h an_ w m wd
    = Alive (incRx (an_, Channel m, From m) wd).
Proof.
  intros ctx h hh re an_ w m wd Hr Hc Hh Hre Hm.
  unfold Loop_message, runHearsHandler. rewrite Hr, Hc, Hh, Hre. simpl.
  rewrite Hm. reflexivity.
Qed.

End LoopAlive.


Lemma Loop_message_no_match_witness :
  Loop_message shellwords_Parse exampleUsage context_Background earOnly
    "shell" (newResponseWriter (adapterSender 0) (inbound "pingpong") "shell")
    (inbound "pingpong") emptyWorld
  = Alive (incRx ("shell", "room", "alice") emptyWorld).
Proof.
  apply (Loop_message_no_match shellwords_Parse exampleUsage
           context_Background earOnly hearsBoom pingPattern "shell"
           (newResponseWriter (adapterSender 0) (inbound "pingpong") "shell")
           (inbound "pingpong") emptyWorld eq_refl eq_refl eq_refl eq_refl
           eq_refl).
Defined.

(** ** Instances of the resolution properties *)

Lemma NextCommand_lookup_witness :
  exists st',
    NextCommand shellwords_Parse exampleUsage insertionSort
                (Some deleteCommands) context_Background
                (inboundState "deploy now")
    = (Done None, st')
    /\ sentTexts (st_world st') = ["deploy"].
Proof.
  rewrite (NextCommand_lookup shellwords_Parse exampleUsage insertionSort
             deleteCommands context_Background (inboundState "deploy now")
             (set_args (inbound "deploy now") (Some ["deploy"; "now"]))
             "deploy" ["now"] (proj1 deleteCommands_wf) eq_refl eq_refl).
  eexists. split; reflexivity.
Defined.

Lemma NextCommand_missing_subcommand_witness :
  NextCommand shellwords_Parse exampleUsage insertionSort
              (Some deployCommands) context_Background
              (inboundState EmptyString)
  = (Done (Some (errorString
             "required sub-command missing: help, delete, deploy")),
     set_m (inboundState EmptyString)
           (set_args (inbound EmptyString) (Some []))).
Proof.
  apply (NextCommand_missing_subcommand shellwords_Parse exampleUsage
           insertionSort deployCommands context_Background
           (inboundState EmptyString)
           (set_args (inbound EmptyString) (Some []))
           ["help"; "delete"; "deploy"]
           ["show help"; "remove"; "delete"]
           [echoCommand "help" "show help"; echoCommand "delete" "remove";
            echoCommand "deploy" "roll out"]
           eq_refl eq_refl eq_refl).
Defined.

Lemma NextCommand_order_independent_witness :
  NextCommand shellwords_Parse exampleUsage insertionSort
              (Some deleteCommands) context_Background (inboundState "dep")
  = NextCommand shellwords_Parse exampleUsage insertionSort
                (Some (rev deleteCommands)) context_Background
                (inboundState "dep")
  \/ exists names names',
      Permutation names names'
      /\ 2 <= List.length names
      /\ NextCommand shellwords_Parse exampleUsage insertionSort
                     (Some deleteCommands) context_Background
                     (inboundState "dep")
         = (Done (Some (errAmbiguous "dep" names)),
            set_m (inboundState "dep")
                  (set_args (inbound "dep") (Some ["dep"])))
      /\ NextCommand shellwords_Parse exampleUsage insertionSort
                     (Some (rev deleteCommands)) context_Background
                     (inboundState "dep")
         = (Done (Some (errAmbiguous "dep" names')),
            set_m (inboundState "dep")
                  (set_args (inbound "dep") (Some ["dep"]))).
Proof.
  apply (NextCommand_order_independent shellwords_Parse exampleUsage
           insertionSort deleteCommands (rev deleteCommands)
           context_Background (inboundState "dep")
           (set_args (inbound "dep") (Some ["dep"])) "dep" []
           (proj1 deleteCommands_wf) (Permutation_rev deleteCommands)
           eq_refl eq_refl).
Defined.

Lemma NextCommand_returns_witness :
  (exists err st',
      NextCommand shellwords_Parse exampleUsage insertionSort
                  (Some [("boom", commandBoom)]) context_Background
                  (inboundState "boom")
      = (Done err, st'))
  /\ NextCommand shellwords_Parse exampleUsage insertionSort None
                 context_Background (inboundState "boom")
     = (Panicked nilDeref,
        set_m (inboundState "boom")
              (set_args (inbound "boom") (Some ["boom"]))).
Proof.
  apply (NextCommand_returns shellwords_Parse exampleUsage insertionSort
           [("boom", commandBoom)] context_Background (inboundState "boom")
           (set_args (inbound "boom") (Some ["boom"])) "boom" []
           eq_refl eq_refl).
Defined.

Lemma runCommandHandler_no_arguments_witness :
  runCommandHandler shellwords_Parse exampleUsage context_Background
                    commandBoom (inboundState "   ")
  = (Some (errorString "command handler called with no possible arguments"),
     set_m (inboundState "   ") (set_args (inbound "   ") (Some []))).
Proof.
  apply (runCommandHandler_no_arguments shellwords_Parse exampleUsage
           context_Background commandBoom (inboundState "   ")
           (set_args (inbound "   ") (Some [])) eq_refl eq_refl).
Defined.

Lemma runCommandHandler_panic_witness :
  exists st',
    runCommandHandler shellwords_Parse exampleUsage context_Background
                      commandBoom (inboundState "boom now")
    = (None, st')
    /\ glog_Error (st_world st') = [PanicRuntime "command boom"]
    /\ sentTexts (st_world st') = [].
Proof.
  rewrite (runCommandHandler_panic shellwords_Parse exampleUsage
             context_Background commandBoom (inboundState "boom now") _
             (set_args (inbound "boom now") (Some ["boom"; "now"]))
             "boom" ["now"] (PanicRuntime "command boom")
             eq_refl eq_refl eq_refl).
  eexists. repeat split; reflexivity.
Defined.

Lemma nil_subs_swallowed_witness :
  exists st',
    runCommandHandler shellwords_Parse exampleUsage context_Background
      (bch_CommandHandler shellwords_Parse exampleUsage insertionSort
         (NewCommandHandler exampleParse "app" "application"
            (Some (fun ctx => ret (ErrNextCommand ctx))) None))
      (inboundState "app delete")
    = (None, st')
    /\ glog_Error (st_world st') = [nilDeref]
    /\ sentTexts (st_world st') = [].
Proof.
  eexists. split; [|split].
  - apply (nil_subs_swallowed shellwords_Parse exampleUsage insertionSort
             exampleParse "app" "application"
             (fun ctx => ret (ErrNextCommand ctx))
             context_Background context_Background
             (inboundState "app delete") _
             (set_args (inbound "app delete") (Some ["app"; "delete"]))
             _ "app" ["delete"] eq_refl eq_refl eq_refl eq_refl).
  - reflexivity.
  - reflexivity.
Defined.

(** ** What [byAlpha.Swap] does to the three slices *)

(** X25: [Swap(i, j)] with both indices in range exchanges the names at
    [i] and [j] and the handlers at [i] and [j]; of the descriptions it
    moves the one at [i] to [j], and for [i] different from [j] it puts at
    [i] the name that stood at [i], not the description that stood at
    [j].  With an index out of range it panics. *)
Theorem Swap_effect :
  forall (b b' : byAlpha) (i j : nat),
    Swap b i j = Some b' ->
    nth_error (ns b') i = nth_error (ns b) j
    /\ nth_error (ns b') j = nth_error (ns b) i
    /\ nth_error (chs b') i = nth_error (chs b) j
    /\ nth_error (chs b') j = nth_error (chs b) i
    /\ nth_error (ds b') j = nth_error (ds b) i
    /\ (i <> j -> nth_error (ds b') i = nth_error (ns b) i)
    /\ (forall k, k <> i -> k <> j ->
                  nth_error (ns b') k = nth_error (ns b) k
                  /\ nth_error (ds b') k = nth_error (ds b) k
                  /\ nth_error (chs b') k = nth_error (chs b) k).
Proof.
  intros b b' i j. unfold Swap, obind. intros H.
  destruct (nth_error (ns b) j) as [nj|] eqn:Enj; [|discriminate].
  destruct (nth_error (ns b) i) as [ni|] eqn:Eni; [|discriminate].
  destruct (assign2 (ns b) i j nj ni) as [ns1|] eqn:Ens; [|discriminate].
  destruct (nth_error ns1 j) as [nj1|] eqn:Enj1; [|discriminate].
  destruct (nth_error (ds b) i) as [di|] eqn:Edi; [|discriminate].
  destruct (assign2 (ds b) i j nj1 di) as [ds1|] eqn:Eds; [|discriminate].
  destruct (nth_error (chs b) j) as [cj|] eqn:Ecj; [|discriminate].
  destruct (nth_error (chs b) i) as [ci|] eqn:Eci; [|discriminate].
  destruct (assign2 (chs b) i j cj ci) as [chs1|] eqn:Ech; [|discriminate].
  inversion H. subst b'. simpl.
  apply assign2_inv in Ens. destruct Ens as (-> & Hin & Hjn).
  apply assign2_inv in Eds. destruct Eds as (-> & Hid & Hjd).
  apply assign2_inv in Ech. destruct Ech as (-> & Hic & Hjc).
  assert (Hsame : forall (A : Type) (l : list A) (x y : A),
             i < List.length l -> j < List.length l ->
             nth_error l j = Some x -> nth_error l i = Some y ->
             nth_error (store (store l i x) j y) i = Some x
             /\ nth_error (store (store l i x) j y) j = Some y).
  { intros A l x y Hi Hj Ex Ey. destruct (Nat.eq_dec i j) as [E|E].
    - subst j. rewrite nth_error_store_same by (rewrite store_length; lia).
      rewrite Ex in Ey. inversion Ey. auto.
    - rewrite nth_error_store_other by congruence.
      rewrite nth_error_store_same by lia.
      rewrite nth_error_store_same by (rewrite store_length; lia). auto. }
  destruct (Hsame _ (ns b) nj ni Hin Hjn Enj Eni) as [N1 N2].
  destruct (Hsame _ (chs b) cj ci Hic Hjc Ecj Eci) as [C1 C2].
  rewrite N2 in Enj1. inversion Enj1. subst nj1.
  repeat split; try congruence.
  - rewrite nth_error_store_same by (rewrite store_length; lia).
    congruence.
  - intros Hne. rewrite nth_error_store_other by congruence.
    rewrite nth_error_store_same by lia. congruence.
  - rewrite !nth_error_store_other by congruence. reflexivity.
  - rewrite !nth_error_store_other by congruence. reflexivity.
  - rewrite !nth_error_store_other by congruence. reflexivity.
Qed.

Lemma Swap_effect_witness :
  Swap (mkByAlpha ["b"; "a"] ["second"; "first"]
                  [echoCommand "b" "second"; echoCommand "a" "first"]) 1 0
  = Some (mkByAlpha ["a"; "b"] ["first"; "a"]
                    [echoCommand "a" "first"; echoCommand "b" "second"])
  /\ nth_error ["first"; "a"] 1 = nth_error ["b"; "a"] 1.
Proof.
  split; [reflexivity|].
  apply (Swap_effect
           (mkByAlpha ["b"; "a"] ["second"; "first"]
                      [echoCommand "b" "second"; echoCommand "a" "first"])
           (mkByAlpha ["a"; "b"] ["first"; "a"]
                      [echoCommand "a" "first"; echoCommand "b" "second"])
           1 0 eq_refl).
  discriminate.
Defined.

(** * The earlier revision of the handler layer (handler.go) *)

Module Legacy.

(** The later revision, under names that the module does not redefine. *)
Local Abbreviation later_NextCommand := NextCommand.
Local Abbreviation later_Write := Write.

(** [responseWriter.Write]: the earlier writer has no label and counts
    nothing; it hands the message to its sender itself. *)
Definition Write (w : responseWriter) (bs : list byte) (wd : World)
  : (Z * option error) * responseWriter * World :=
  let nmsg := msg w in
  let nmsg := set_Text nmsg (string_of_list_byte bs) in
  let wd := Sender_Send (w_snd w) context_TODO nmsg wd in
  ((Z.of_nat (List.length bs), None), w, wd).

(** The body of the loop of [List]. *)
Definition List_step (acc : list string * list string)
  (e : string * CommandHandler) : list string * list string :=
  let (cmds, descs) := acc in
  let ch := snd e in
  let (n, d) := Describe ch in
  (cmds ++ [n], descs ++ [d]).

(** [CommandSet.List]: names and descriptions, unsorted. *)
Definition List (cs : CommandSet) : list string * list string :=
  fold_left List_step cs ([], []).

Section Revision.

Variable Parse : string -> option (list string).
Variable cmdUsage : CommandHandler -> string -> string.

(** [RunCommandHandler] has the text of the later [runCommandHandler]. *)
Definition RunCommandHandler (ctx : Context) (h : CommandHandler) (st : State)
  : option error * State :=
  runCommandHandler Parse cmdUsage ctx h st.

(** [CommandSet.NextCommand]: a lookup of [args[0]] in the map. *)
Definition NextCommand (cs : option CommandSet) (ctx : Context)
  : M (option error) :=
  fun st =>
    match parseArgs Parse (st_m st) with
    | None => (Done (Some ErrBadCLI), st)
    | Some m =>
        let st := set_m st m in
        match args m with
        | Some (arg0 :: _) =>
            match cs with
            | None => (Panicked nilDeref, st)
            | Some cs =>
                match cs_get cs arg0 with
                | Some cmd =>
                    let (err, st) := RunCommandHandler ctx cmd st in
                    (Done err, st)
                | None => (Done (Some ErrUnknownCommand), st)
                end
            end
        | _ =>
            match cs with
            | None => (Panicked nilDeref, st)
            | Some cs =>
                let (cmds, _) := List cs in
                (Done (Some (errSubCommandMissing cmds)), st)
            end
        end
    end.

Lemma List_fold_unsorted (cs : CommandSet) :
  forall cmds descs,
    fold_left List_step cs (cmds, descs)
    = (cmds ++ map nameOf cs, descs ++ map descOf cs).
Proof.
  induction cs as [|[k c] cs IH]; intros cmds descs; simpl.
  - rewrite !app_nil_r. reflexivity.
  - unfold nameOf, descOf in *. simpl.
    destruct (Describe c) as [n d]. simpl.
    rewrite IH, <- !app_assoc. reflexivity.
Qed.

(** X19: the earlier [List] returns one name and one description for each
    entry, in the order of the iteration, and the description at an index
    is that of the handler named at that index; a handler named help
    stands where the iteration meets it. *)
Theorem List_in_order :
  forall cs : CommandSet,
    List cs = (map nameOf cs, map descOf cs)
    /\ combine (fst (List cs)) (snd (List cs))
       = map (fun e => Describe (snd e)) cs.
Proof.
  intros cs. unfold List. rewrite List_fold_unsorted. simpl.
  split; [reflexivity|].
  induction cs as [|[k c] cs IH]; simpl; [reflexivity|].
  rewrite IH. unfold nameOf, descOf. simpl.
  destruct (Describe c). reflexivity.
Qed.


(** X21: the later [Write] delivers what the earlier one delivers, to the
    same sender and with the same result; it differs by the one increment
    of the counter of sent messages. *)
Theorem Write_extended :
  forall (w : responseWriter) (bs : list byte) (wd : World),
    fst (later_Write w bs wd) = fst (Write w bs wd)
    /\ outbox (snd (later_Write w bs wd)) = outbox (snd (Write w bs wd))
    /\ messagesTx (snd (later_Write w bs wd))
       = messagesTx (snd (Write w bs wd))
         ++ [(an w, Channel (msg w), From (msg w))].
Proof.
  intros w bs wd. unfold later_Write, Write, Send. simpl.
  destruct (w_snd w); repeat split.
Qed.

End Revision.


End Legacy.

(** * The Mattermost adapter: from an event to a message *)

Module Mattermost.

(** [mm.Post], as far as the adapter reads it. *)
Record Post : Type := mkPost {
  UserId : string;
  ChannelId : string;
  PostMessage : string
}.

(** [mm.WebSocketEvent]: the event name and the entries post and
    channel_type of [Data]; [None] is an absent key, and a value that is
    present is a string. *)
Record WebSocketEvent : Type := mkEvent {
  Event : string;
  Data_post : option string;
  Data_channel_type : option string
}.

Definition badConversion : PanicValue :=
  PanicRuntime "interface conversion: interface is nil, not string".

Fixpoint dropSpaces (l : list ascii) : list ascii :=
  match l with
  | [] => []
  | c :: r => if (c =? " ")%char then dropSpaces r else l
  end.

(** [strings.Trim(s, " ")] *)
Definition Trim_space (s : string) : string :=
  string_of_list_ascii
    (rev (dropSpaces (rev (dropSpaces (list_ascii_of_string s))))).

(** The [switch] on the channel type: private and tobot, or [None] for
    the default branch. *)
Definition channelFlags (ct : string) : option (bool * bool) :=
  if (ct =? "D")%string then Some (true, true)
  else if (ct =? "P")%string then Some (true, false)
  else if (ct =? "O")%string then Some (false, false)
  else None.


Lemma channelFlags_Some (ct : string) (pv tb : bool) :
  channelFlags ct = Some (pv, tb) ->
  (pv = true <-> ct = "D" \/ ct = "P") /\ (tb = true <-> ct = "D").
Proof.
  unfold channelFlags.
  destruct (ct =? "D")%string eqn:ED; [apply String.eqb_eq in ED|].
  { intros H. inversion H. subst. tauto. }
  destruct (ct =? "P")%string eqn:EP; [apply String.eqb_eq in EP|].
  { intros H. inversion H. subst. split; [tauto|].
    split; [discriminate|]. discriminate. }
  destruct (ct =? "O")%string eqn:EO; [|discriminate].
  apply String.eqb_neq in ED, EP. intros H. inversion H. subst.
  split; (split; [discriminate|]); [intros [E|E]|intros E]; contradiction.
Qed.

Section Adapter.

(** [mm.PostFromJson]; [None] is the nil post of a text that does not
    decode. *)
Variable PostFromJson : string -> option Post.

(** [s.dirPat.FindStringSubmatch]; [None] is the nil slice of a text that
    the pattern does not match. *)
Variable dirPat : string -> option (list string).

(** [mm.WEBSOCKET_EVENT_POSTED] *)
Variable WEBSOCKET_EVENT_POSTED : string.

(** [s.user.Id] *)
Variable self : string.

(** [len(dirMatch) > 1 && len(dirMatch[1]) > 0], with [dirMatch[1]]. *)
Definition addressed (text : string) : option string :=
  match dirPat text with
  | Some (_ :: g :: _) =>
      if (0 <? String.length g)%nat then Some g else None
  | _ => None
  end.

(** [mmMsgToHugot]; the result [None] is the nil message. *)
Definition mmMsgToHugot (me : WebSocketEvent) : outcome (option Message) :=
  match Data_post me with
  | None => Panicked badConversion
  | Some js =>
      match PostFromJson js with
      | None => Panicked nilDeref
      | Some p =>
          let uname := UserId p in
          if (uname =? EmptyString)%string then Done None
          else
            match Data_channel_type me with
            | None => Done None
            | Some ct =>
                match channelFlags ct with
                | None => Done None
                | Some (private, tobot) =>
                    let (tobot, text) :=
                      match addressed (PostMessage p) with
                      | Some g => (true, Trim_space g)
                      | None => (tobot, PostMessage p)
                      end in
                    Done (Some (mkMessage (ChannelId p) uname EmptyString
                                          (UserId p) private tobot text
                                          None None None))
                end
            end
      end
  end.



(** X23: the message that [mmMsgToHugot] makes carries the channel and
    the user of the post and no recipient; it is private exactly on the
    channel types D and P, and addressed to the bot exactly when the
    channel type is D or the text matches the pattern of direct address
    with something after the name of the bot. *)
Theorem mmMsgToHugot_flags :
  forall (me : WebSocketEvent) (js ct : string) (p : Post) (m : Message),
    Data_post me = Some js ->
    PostFromJson js = Some p ->
    Data_channel_type me = Some ct ->
    mmMsgToHugot me = Done (Some m) ->
    Channel m = ChannelId p /\ From m = UserId p /\ UserID m = UserId p
    /\ To m = EmptyString /\ args m = None
    /\ (Private m = true <-> ct = "D" \/ ct = "P")
    /\ (ToBot m = true
        <-> ct = "D" \/ exists g, addressed (PostMessage p) = Some g).
Proof.
  clear WEBSOCKET_EVENT_POSTED self. intros me js ct p m Hd Hp Hc. unfold mmMsgToHugot.
  rewrite Hd, Hp, Hc.
  destruct (UserId p =? EmptyString)%string; [discriminate|].
  destruct (channelFlags ct) as [[pv tb]|] eqn:Ef; [|discriminate].
  destruct (channelFlags_Some ct pv tb Ef) as [Hpv Htb].
  destruct (addressed (PostMessage p)) as [g|];
    intros H; inversion H; subst m; simpl; repeat split; auto;
    try tauto; try (intros _; right; eauto).
  intros [E|[g E]]; [apply Htb; exact E|discriminate].
Qed.


End Adapter.

(** Instances for the examples: a decoder that takes the text as the
    message of a post by bob in the channel town, and the pattern of
    direct address of a bot called minion, for texts without a colon or
    comma after the name. *)
Definition exampleDecode (js : string) : option Post :=
  if (js =? EmptyString)%string then None else Some (mkPost "bob" "town" js).

Definition exampleDirPat (text : string) : option (list string) :=
  if prefix "@minion " text
  then Some [text; substring 8 (String.length text - 8) text]
  else None.

Definition openPost (text ct : string) : WebSocketEvent :=
  mkEvent "posted" (Some text) (Some ct).


Lemma mmMsgToHugot_flags_witness :
  mmMsgToHugot exampleDecode exampleDirPat (openPost "@minion  ping " "O")
  = Done (Some (mkMessage "town" "bob" EmptyString "bob" false true "ping"
                          None None None))
  /\ (true = true
      <-> "O" = "D"
          \/ exists g, addressed exampleDirPat "@minion  ping " = Some g).
Proof.
  split; [reflexivity|].
  apply (mmMsgToHugot_flags exampleDecode exampleDirPat
           (openPost "@minion  ping " "O") "@minion  ping " "O"
           (mkPost "bob" "town" "@minion  ping ")
           (mkMessage "town" "bob" EmptyString "bob" false true "ping"
                      None None None)
           eq_refl eq_refl eq_refl eq_refl).
Defined.


End Mattermost.
